(** * RockPaperScissors: the Markov predictor and the play-round handler

    A shallow embedding of [backend/ml.py] (the move alphabet, [beats], the
    [MarkovPredictor] class) and of the core of [backend/app.py] ([outcome]
    and the [/play] handler), followed by the properties the specification
    states about them.

    Moves are Python strings, the history is a [deque(maxlen=50)], the
    transition table is a [defaultdict] of [defaultdict(int)].  Methods
    thread the predictor explicitly; a call ends by returning, by raising,
    or by asking [random.choice] for a move. *)

From stdpp Require Import gmap strings list.

Open Scope string_scope.
Open Scope list_scope.
Open Scope nat_scope.

(** ** Python containers *)

(** A [dict] from [str] to [int] in insertion order: iteration and [max]
    visit the entries in the order in which the keys were first inserted. *)
Abbreviation dict := (list (string * Z)).

Definition dict_keys (d : dict) : list string := d.*1.
Definition dict_values (d : dict) : list Z := d.*2.

(** [d.get(k)] *)
Fixpoint dict_get (d : dict) (k : string) : option Z :=
  match d with
  | [] => None
  | (k', v) :: d' => if String.eqb k' k then Some v else dict_get d' k
  end.

(** [d[k] += 1] on a plain [dict]: [None] stands for the [KeyError] of the
    read of a missing key. *)
Fixpoint dict_incr (d : dict) (k : string) : option dict :=
  match d with
  | [] => None
  | (k', v) :: d' =>
      if String.eqb k' k then Some ((k', v + 1)%Z :: d')
      else cons (k', v) <$> dict_incr d' k
  end.

(** [d[k] += 1] on a [defaultdict(int)]: a missing key is first inserted
    with [int() = 0], at the end of the iteration order. *)
Fixpoint defaultdict_incr (d : dict) (k : string) : dict :=
  match d with
  | [] => [(k, 1%Z)]
  | (k', v) :: d' =>
      if String.eqb k' k then (k', v + 1)%Z :: d'
      else (k', v) :: defaultdict_incr d' k
  end.

(** [max(d, key=d.get)] keeps the first entry whose value is not exceeded
    by a later one: the running best is replaced only on a strictly
    greater value. *)
Fixpoint max_from (best : string) (best_v : Z) (d : dict) : string :=
  match d with
  | [] => best
  | (k, v) :: d' =>
      if (best_v <? v)%Z then max_from k v d' else max_from best best_v d'
  end.

(** [None] is the [ValueError] of [max] on an empty iterable. *)
Definition dict_max (d : dict) : option string :=
  match d with
  | [] => None
  | (k, v) :: d' => Some (max_from k v d')
  end.

(** [sum(d.values())] *)
Definition dict_sum (d : dict) : Z := foldr Z.add 0%Z (dict_values d).

(** [l[start:]] with Python's treatment of negative and overlong indices. *)
Definition slice_from {A} (l : list A) (start : Z) : list A :=
  let n := Z.of_nat (length l) in
  let i := if (start <? 0)%Z then Z.max (start + n) 0 else Z.min start n in
  drop (Z.to_nat i) l.

(** [collections.deque] with a [maxlen]. *)
Record deque := Deque { items : list string; maxlen : nat }.

(** [dq.append(x)]: the new entry goes to the right end and, when the bound
    is exceeded, one entry is dropped from the left end. *)
Definition deque_append (dq : deque) (x : string) : deque :=
  let xs := items dq ++ [x] in
  Deque (if (maxlen dq <? length xs)%nat then drop 1 xs else xs) (maxlen dq).

(** ** ml.py *)

Definition MOVES : list string := ["rock"; "paper"; "scissors"].

(** Return the move that beats the given move. *)
Definition beats (move : string) : string :=
  if String.eqb move "rock" then "paper"
  else if String.eqb move "paper" then "scissors"
  else "rock".

Record MarkovPredictor := {
  order : Z;
  history : deque;
  transitions : gmap (list string) dict
}.

(** [MarkovPredictor(order=n)] with the default factories of the other
    two fields. *)
Definition MarkovPredictor_new (n : Z) : MarkovPredictor :=
  {| order := n; history := Deque [] 50; transitions := ∅ |}.

Inductive exn :=
| KeyError (key : string)
| ValueError
| IndexError
| ValidationError
| HTTPException (status_code : Z) (detail : string).

(** How a call on the predictor ends. *)
Inductive res (A : Type) : Type :=
| Return (a : A) (self : MarkovPredictor)
| Raise (e : exn) (self : MarkovPredictor)
| RandomChoice (seq : list string) (k : string → res A).
Arguments Return {A} a self.
Arguments Raise {A} e self.
Arguments RandomChoice {A} seq k.

Fixpoint bind {A B} (r : res A) (f : A → MarkovPredictor → res B) : res B :=
  match r with
  | Return a self => f a self
  | Raise e self => Raise e self
  | RandomChoice seq k => RandomChoice seq (λ x, bind (k x) f)
  end.

(** Every way a call can end, one per element [random.choice] may pick. *)
Fixpoint results {A} (r : res A) : list ((exn + A) * MarkovPredictor) :=
  match r with
  | Return a self => [(inr a, self)]
  | Raise e self => [(inl e, self)]
  | RandomChoice seq k => seq ≫= (λ x, results (k x))
  end.

(** [random.choice(seq)] *)
Definition random_choice (seq : list string) (self : MarkovPredictor)
  : res string :=
  match seq with
  | [] => Raise IndexError self
  | _ => RandomChoice seq (λ x, Return x self)
  end.

Definition len (dq : deque) : Z := Z.of_nat (length (items dq)).

(** The last [order] user moves, [tuple(list(self.history)[-self.order:])]. *)
Definition current_state (self : MarkovPredictor) : list string :=
  slice_from (items (history self)) (- order self).

(** [self.transitions[state][user_move] += 1]: both levels are
    [defaultdict]s, so a missing state gets a fresh inner table. *)
Definition learn (t : gmap (list string) dict) (state : list string)
    (user_move : string) : gmap (list string) dict :=
  <[state := defaultdict_incr (default [] (t !! state)) user_move]> t.

Definition record_user_move (self : MarkovPredictor) (user_move : string)
  : res unit :=
  if negb (bool_decide (user_move ∈ MOVES)) then Return tt self
  else
    let t :=
      if (order self <=? len (history self))%Z
      then learn (transitions self) (current_state self) user_move
      else transitions self in
    Return tt {| order := order self;
                 history := deque_append (history self) user_move;
                 transitions := t |}.

(** [freq = {m: 0 for m in MOVES}; for m in self.history: freq[m] += 1] *)
Fixpoint count_history (freq : dict) (h : list string) : exn + dict :=
  match h with
  | [] => inr freq
  | m :: h' =>
      match dict_incr freq m with
      | None => inl (KeyError m)
      | Some freq' => count_history freq' h'
      end
  end.

Definition return_max (d : dict) (self : MarkovPredictor) : res string :=
  match dict_max d with
  | None => Raise ValueError self
  | Some m => Return m self
  end.

Definition predict_next_user_move (self : MarkovPredictor) : res string :=
  if (len (history self) <? order self)%Z then random_choice MOVES self
  else
    match transitions self !! current_state self with
    | Some ((_ :: _) as next_counts) => return_max next_counts self
    | _ =>
        match count_history ((λ m, (m, 0%Z)) <$> MOVES)
                            (items (history self)) with
        | inl e => Raise e self
        | inr freq =>
            if (dict_sum freq =? 0)%Z then random_choice MOVES self
            else return_max freq self
        end
    end.

Definition choose_ai_move (self : MarkovPredictor) : res (string * string) :=
  bind (predict_next_user_move self) (λ predicted_user self,
    let ai_move := beats predicted_user in
    Return (ai_move, predicted_user) self).

(** ** app.py *)

Record PlayRequest := { req_user_move : string }.

Record PlayResponse := {
  user_move : string;
  ai_move : string;
  result : string;
  predicted_next_user_move : string;
  model_info : dict
}.

(** The validation of the [Literal] fields when a [PlayResponse] is built. *)
Definition PlayResponse_new (user_move ai_move result predicted : string)
    (model_info : dict) (predictor : MarkovPredictor) : res PlayResponse :=
  if bool_decide (user_move ∈ MOVES) && bool_decide (ai_move ∈ MOVES)
     && bool_decide (result ∈ ["win"; "lose"; "draw"])
     && bool_decide (predicted ∈ MOVES)
  then Return {| user_move := user_move; ai_move := ai_move;
                 result := result; predicted_next_user_move := predicted;
                 model_info := model_info |} predictor
  else Raise ValidationError predictor.

(** Return win/lose/draw from the user's perspective. *)
Definition outcome (user_move ai_move : string) : string :=
  if String.eqb user_move ai_move then "draw"
  else if String.eqb user_move "rock" && String.eqb ai_move "scissors"
       || String.eqb user_move "paper" && String.eqb ai_move "rock"
       || String.eqb user_move "scissors" && String.eqb ai_move "paper"
  then "win"
  else "lose".

(** The [/play] handler; [predictor] is the module-level predictor. *)
Definition play (predictor : MarkovPredictor) (req : PlayRequest)
  : res PlayResponse :=
  let user_move := req_user_move req in
  if negb (bool_decide (user_move ∈ MOVES))
  then Raise (HTTPException 400 "Invalid move") predictor
  else
    bind (choose_ai_move predictor) (λ '(ai_move, predicted_next) predictor,
    let result := outcome user_move ai_move in
    bind (record_user_move predictor user_move) (λ _ predictor,
    let learned_states := Z.of_nat (size (transitions predictor)) in
    let history_len := len (history predictor) in
    PlayResponse_new user_move ai_move result predicted_next
      [("history_len", history_len); ("learned_states", learned_states)]
      predictor)).

(** ** Vocabulary of the specification *)

(** The beats relation in the specification's words: ROCK beats SCISSORS,
    SCISSORS beats PAPER, PAPER beats ROCK. *)
Definition defeats (winner loser : string) : Prop :=
  (winner, loser) ∈
    [("rock", "scissors"); ("scissors", "paper"); ("paper", "rock")].

Global Instance defeats_dec winner loser : Decision (defeats winner loser).
Proof. unfold defeats. apply _. Defined.

(** [k] is the first entry of [d] that carries the highest count. *)
Definition first_max (d : dict) (k : string) : Prop :=
  ∃ (i : nat) (v : Z),
    d !! i = Some (k, v)
    ∧ (∀ j k' v', d !! j = Some (k', v') → (v' ≤ v)%Z)
    ∧ (∀ j k' v', (j < i)%nat → d !! j = Some (k', v') → (v' < v)%Z).

(** How often [m] occurs in the history [h]. *)
Definition occurrences (m : string) (h : list string) : Z :=
  Z.of_nat (length (filter (λ x, x = m) h)).

(** The overall frequencies: every move, in the order of [MOVES], with the
    number of its occurrences in the history. *)
Definition frequencies (h : list string) : dict :=
  (λ m, (m, occurrences m h)) <$> MOVES.

(** The count recorded for the transition from [state] to [m]. *)
Definition count (t : gmap (list string) dict) (state : list string)
    (m : string) : Z :=
  default 0%Z (t !! state ≫= λ d, dict_get d m).

(** The predictors that arise from a fresh one by recording moves. *)
Inductive reachable : MarkovPredictor → Prop :=
| reachable_new n : reachable (MarkovPredictor_new n)
| reachable_record self m self' :
    reachable self →
    record_user_move self m = Return tt self' →
    reachable self'.

(** The typing of the data model: the history and the learned successors
    hold moves only. *)
Definition model_ok (self : MarkovPredictor) : Prop :=
  Forall (λ m, m ∈ MOVES) (items (history self))
  ∧ map_Forall (λ _ d, Forall (λ m, m ∈ MOVES) (dict_keys d))
               (transitions self).

(** Record the moves of [ms] one after the other. *)
Fixpoint record_moves (self : MarkovPredictor) (ms : list string)
  : res unit :=
  match ms with
  | [] => Return tt self
  | m :: ms' =>
      bind (record_user_move self m) (λ _ self', record_moves self' ms')
  end.

(** Ask for a prediction [n] times in a row. *)
Fixpoint predict_repeatedly (n : nat) (self : MarkovPredictor)
  : res (list string) :=
  match n with
  | O => Return [] self
  | S n' =>
      bind (predict_next_user_move self) (λ m self',
      bind (predict_repeatedly n' self') (λ ms self'',
      Return (m :: ms) self''))
  end.

(** ** app.py, the other handlers *)

(** The values in the JSON objects the handlers answer with. *)
Inductive json := JBool (b : bool) | JStr (s : string).

(** The [/health] handler. *)
Definition health (predictor : MarkovPredictor)
  : res (list (string * json)) :=
  Return [("ok", JBool true)] predictor.

(** The [/reset] handler: reset the model + history.  The module-level
    predictor is replaced by a new [MarkovPredictor(order=3)]. *)
Definition reset (predictor : MarkovPredictor)
  : res (list (string * json)) :=
  let predictor := MarkovPredictor_new 3 in
  Return [("ok", JBool true); ("message", JStr "Model reset")] predictor.

(** The requests the application serves. *)
Inductive request :=
| GetHealth
| PostPlay (req : PlayRequest)
| PostReset.

(** The predictors a request can leave behind, whichever way its handler
    ends. *)
Definition after (predictor : MarkovPredictor) (rq : request)
  : list MarkovPredictor :=
  match rq with
  | GetHealth => (results (health predictor)).*2
  | PostPlay req => (results (play predictor req)).*2
  | PostReset => (results (reset predictor)).*2
  end.

(** The module-level predictor over the life of the application: it starts
    as [MarkovPredictor(order=3)] and changes with the requests served. *)
Inductive served : MarkovPredictor → Prop :=
| served_start : served (MarkovPredictor_new 3)
| served_request predictor rq predictor' :
    served predictor →
    predictor' ∈ after predictor rq →
    served predictor'.

(** ** Further vocabulary *)

(** The last [n] entries of [l], all of [l] if it has fewer. *)
Definition last_n {A} (n : nat) (l : list A) : list A :=
  drop (length l - n) l.

(** The inputs that [record_user_move] does not ignore. *)
Definition valid_moves (ms : list string) : list string :=
  filter (λ m, m ∈ MOVES) ms.

(** How often, in the sequence [vs], the [n] consecutive entries [key] are
    directly followed by [m]: one for every suffix of [vs] that starts
    with [key] followed by [m]. *)
Fixpoint ngram_count (n : nat) (vs key : list string) (m : string) : Z :=
  match vs with
  | [] => 0
  | _ :: vs' =>
      (if bool_decide (take n vs = key ∧ vs !! n = Some m) then 1 else 0)
      + ngram_count n vs' key m
  end%Z.

(** What holds of every entry [d] stored under a [key] by a predictor of
    window length [n]: it is not empty, lists each move at most once with
    a count of at least one, and its key is made of moves; for a window
    length of at least one the key has exactly that length, which then
    cannot exceed the capacity of the history. *)
Definition entry_ok (n : Z) (key : list string) (d : dict) : Prop :=
  d ≠ []
  ∧ NoDup (dict_keys d)
  ∧ Forall (λ kv, kv.1 ∈ MOVES ∧ (1 ≤ kv.2)%Z) d
  ∧ Forall (λ m, m ∈ MOVES) key
  ∧ ((1 ≤ n)%Z → Z.of_nat (length key) = n ∧ (n ≤ 50)%Z).

(** The predictor of window length [n] that has seen the move [m], and
    nothing else, [k] times. *)
Definition constant_state (n : Z) (m : string) (k : nat) : MarkovPredictor :=
  {| order := n;
     history := Deque (replicate (k `min` 50) m) 50;
     transitions :=
       if bool_decide (Z.to_nat n < k)
       then {[ replicate (Z.to_nat n) m := [(m, Z.of_nat (k - Z.to_nat n))] ]}
       else ∅ |}.

(** * Properties *)

Ltac move_cases H :=
  unfold MOVES in H;
  repeat (apply elem_of_cons in H as [-> | H]);
  [ .. | by apply elem_of_nil in H ].

Ltac by_computation := apply (bool_decide_unpack _); vm_compute; exact I.

(** ** The beats cycle *)

Lemma beats_in_MOVES m : beats m ∈ MOVES.
Proof.
  unfold beats, MOVES. repeat case_match; set_solver.
Qed.

Lemma beats_defeats m : m ∈ MOVES → defeats (beats m) m.
Proof. intros H. move_cases H; by_computation. Qed.

Lemma defeats_unique x m : defeats x m → x = beats m.
Proof.
  unfold defeats. set_unfold. intros H.
  destruct H as [[= -> ->] | [[= -> ->] | [[= -> ->] | []]]]; reflexivity.
Qed.

(** C7: for every valid move [m], [beats (beats m)] differs from [m], and
    [beats m] is the one and only move that defeats [m]; the relation is a
    cycle of length three, so applying [beats] three times gives [m] back. *)
Theorem beats_three_cycle (m : string) :
  m ∈ MOVES →
  beats (beats m) ≠ m
  ∧ defeats (beats m) m
  ∧ (∀ x, defeats x m → x = beats m)
  ∧ beats (beats (beats m)) = m.
Proof.
  intros Hm. split_and!.
  - move_cases Hm; by_computation.
  - by apply beats_defeats.
  - intros x. apply defeats_unique.
  - move_cases Hm; reflexivity.
Qed.

Lemma beats_three_cycle_witness :
  "paper" ∈ MOVES
  ∧ beats (beats "paper") ≠ "paper"
  ∧ defeats (beats "paper") "paper"
  ∧ (∀ x, defeats x "paper" → x = beats "paper")
  ∧ beats (beats (beats "paper")) = "paper".
Proof.
  assert (H : "paper" ∈ MOVES) by by_computation.
  exact (conj H (beats_three_cycle "paper" H)).
Defined.

(** ** The outcome of a round *)

(** C5: for valid moves the outcome is "draw" exactly when the moves are
    equal, "win" exactly when the user's move defeats the AI's move (that
    is, when it is the move [beats] names for the AI's move), and "lose"
    in every other case. *)
Theorem outcome_correct (user_move ai_move : string) :
  user_move ∈ MOVES → ai_move ∈ MOVES →
  (outcome user_move ai_move = "draw" ↔ user_move = ai_move)
  ∧ (outcome user_move ai_move = "win" ↔ defeats user_move ai_move)
  ∧ (outcome user_move ai_move = "win" ↔ user_move = beats ai_move)
  ∧ (outcome user_move ai_move = "lose" ↔
       user_move ≠ ai_move ∧ ¬ defeats user_move ai_move).
Proof.
  intros Hu Ha. move_cases Hu; move_cases Ha; by_computation.
Qed.

Lemma outcome_correct_witness :
  "rock" ∈ MOVES ∧ "scissors" ∈ MOVES
  ∧ (outcome "rock" "scissors" = "draw" ↔ "rock" = "scissors")
  ∧ (outcome "rock" "scissors" = "win" ↔ defeats "rock" "scissors")
  ∧ (outcome "rock" "scissors" = "win" ↔ "rock" = beats "scissors")
  ∧ (outcome "rock" "scissors" = "lose" ↔
       "rock" ≠ "scissors" ∧ ¬ defeats "rock" "scissors").
Proof.
  assert (Hu : "rock" ∈ MOVES) by by_computation.
  assert (Ha : "scissors" ∈ MOVES) by by_computation.
  exact (conj Hu (conj Ha (outcome_correct "rock" "scissors" Hu Ha))).
Defined.

(** ** Calls and their results *)

Lemma results_bind {A B} (r : res A) (f : A → MarkovPredictor → res B) :
  results (bind r f) =
  results r ≫= (λ '(x, self),
    match x with
    | inl e => [(inl e, self)]
    | inr a => results (f a self)
    end).
Proof.
  induction r as [a self | e self | seq k IH]; simpl.
  - by rewrite app_nil_r.
  - reflexivity.
  - induction seq as [| x seq IHseq]; [reflexivity |].
    by rewrite !bind_cons, bind_app, IH, IHseq.
Qed.

(** ** Recording a move *)

Lemma record_user_move_returns self m :
  ∃ self', record_user_move self m = Return tt self'.
Proof. unfold record_user_move. case_match; eauto. Qed.

Lemma record_user_move_valid self m :
  m ∈ MOVES →
  record_user_move self m =
  Return tt {| order := order self;
               history := deque_append (history self) m;
               transitions :=
                 if (order self <=? len (history self))%Z
                 then learn (transitions self) (current_state self) m
                 else transitions self |}.
Proof.
  intros Hm. unfold record_user_move.
  by rewrite (bool_decide_eq_true_2 _ Hm).
Qed.

Lemma record_user_move_invalid self symbol :
  symbol ∉ MOVES → record_user_move self symbol = Return tt self.
Proof.
  intros Hs. unfold record_user_move.
  by rewrite (bool_decide_eq_false_2 _ Hs).
Qed.

(** C9: a symbol outside the three moves is ignored: the call returns
    normally and hands back the predictor it was given, history and
    transition table included. *)
Theorem record_user_move_ignores_invalid (self : MarkovPredictor)
    (symbol : string) :
  symbol ∉ MOVES →
  record_user_move self symbol = Return tt self.
Proof. apply record_user_move_invalid. Qed.

Lemma record_user_move_ignores_invalid_witness :
  ("lizard" ∉ MOVES)
  ∧ (record_user_move (MarkovPredictor_new 3) "lizard"
     = Return tt (MarkovPredictor_new 3)).
Proof.
  assert (H : "lizard" ∉ MOVES) by by_computation.
  exact (conj H
    (record_user_move_ignores_invalid (MarkovPredictor_new 3) "lizard" H)).
Defined.

(** ** Predicting is a query *)

Lemma predict_keeps_self self :
  Forall (λ r, r.2 = self) (results (predict_next_user_move self)).
Proof.
  unfold predict_next_user_move, return_max.
  repeat case_match; simpl; repeat constructor.
Qed.

Lemma predict_repeatedly_keeps_self n self :
  Forall (λ r, r.2 = self) (results (predict_repeatedly n self)).
Proof.
  induction n as [| n IH]; [by repeat constructor |].
  cbn [predict_repeatedly]. rewrite results_bind. apply Forall_bind.
  eapply Forall_impl; [apply predict_keeps_self |].
  intros [[e | m] s] Hs; simpl in Hs; subst s;
    cbv beta iota delta [compose]; [by repeat constructor |].
  rewrite results_bind. apply Forall_bind.
  eapply Forall_impl; [apply IH |].
  intros [[e | ms] s] Hs; simpl in Hs; subst s; by repeat constructor.
Qed.

(** C4: predicting is a pure query.  Whatever way a call to
    [predict_next_user_move] ends, the predictor is the one it started
    from, and so its history, its transition table, the table's entry for
    the current state and the number of states in the table are as before;
    the same holds after any number of calls in a row. *)
Theorem predict_is_pure_query (self : MarkovPredictor) (n : nat) :
  Forall (λ r, r.2 = self) (results (predict_next_user_move self))
  ∧ Forall (λ r,
      history r.2 = history self
      ∧ transitions r.2 = transitions self
      ∧ transitions r.2 !! current_state self
        = transitions self !! current_state self
      ∧ size (transitions r.2) = size (transitions self))
      (results (predict_repeatedly n self)).
Proof.
  split; [apply predict_keeps_self |].
  eapply Forall_impl; [apply predict_repeatedly_keeps_self |].
  by intros [x s] ->.
Qed.

(** ** The state key and the transition counts *)

Lemma slice_from_last {A} (l : list A) (k : Z) :
  (1 ≤ k ≤ Z.of_nat (length l))%Z →
  slice_from l (- k) = drop (length l - Z.to_nat k) l.
Proof.
  intros Hk. unfold slice_from.
  destruct (Z.ltb_spec (- k) 0) as [_ | ?]; [| lia].
  f_equal. lia.
Qed.

Lemma current_state_window self :
  (1 ≤ order self ≤ len (history self))%Z →
  ∃ older,
    items (history self) = older ++ current_state self
    ∧ Z.of_nat (length (current_state self)) = order self.
Proof.
  intros Hk. unfold current_state, len in *.
  rewrite slice_from_last by done.
  exists (take (length (items (history self)) - Z.to_nat (order self))
               (items (history self))).
  split; [by rewrite take_drop |].
  rewrite length_drop. lia.
Qed.

Lemma dict_get_defaultdict_incr d k k' :
  dict_get (defaultdict_incr d k) k' =
  if decide (k' = k) then Some (default 0 (dict_get d k) + 1)%Z
  else dict_get d k'.
Proof.
  induction d as [| [k0 v] d IH]; simpl.
  - destruct (String.eqb_spec k k'), (decide (k' = k)); congruence || done.
  - destruct (String.eqb_spec k0 k) as [-> | Hne]; simpl.
    + destruct (String.eqb_spec k k'), (decide (k' = k)); congruence.
    + rewrite IH.
      destruct (String.eqb_spec k0 k'), (decide (k' = k)); congruence.
Qed.

Lemma count_learn t state m state' m' :
  count (learn t state m) state' m' =
  (count t state' m'
   + if bool_decide (state' = state ∧ m' = m) then 1 else 0)%Z.
Proof.
  unfold count, learn.
  destruct (decide (state' = state)) as [-> | Hne].
  - rewrite lookup_insert_eq. simpl. rewrite dict_get_defaultdict_incr.
    destruct (decide (m' = m)) as [-> | Hm].
    + rewrite bool_decide_eq_true_2 by done.
      by destruct (t !! state).
    + rewrite bool_decide_eq_false_2 by (by intros [_ ?]).
      destruct (t !! state); simpl; lia.
  - rewrite lookup_insert_ne by done.
    rewrite bool_decide_eq_false_2 by (by intros [? _]). lia.
Qed.

(** C2: recording a valid move leaves the transition table alone while the
    history is shorter than [order]; otherwise (for a window length
    [order] of at least one) the history before the append ends in a key
    of exactly [order] entries, and the count of the transition from that
    key to the recorded move goes up by one while every other count stays.
    With [order = 3], a fresh predictor that records rock, rock, rock has
    an empty table, and recording paper next makes the table hold exactly
    the count 1 for paper under the key (rock, rock, rock). *)
Theorem record_user_move_learns_window :
  (∀ self m, m ∈ MOVES →
     ∃ self',
       record_user_move self m = Return tt self'
       ∧ ((len (history self) < order self)%Z →
          transitions self' = transitions self)
       ∧ ((1 ≤ order self ≤ len (history self))%Z →
          ∃ older key,
            items (history self) = older ++ key
            ∧ Z.of_nat (length key) = order self
            ∧ ∀ state mv,
                count (transitions self') state mv =
                (count (transitions self) state mv
                 + if bool_decide (state = key ∧ mv = m) then 1 else 0)%Z))
  ∧ (∃ s3 s4,
       record_moves (MarkovPredictor_new 3) ["rock"; "rock"; "rock"]
       = Return tt s3
       ∧ items (history s3) = ["rock"; "rock"; "rock"]
       ∧ transitions s3 = ∅
       ∧ record_user_move s3 "paper" = Return tt s4
       ∧ transitions s4 = {[ ["rock"; "rock"; "rock"] := [("paper", 1%Z)] ]}
       ∧ count (transitions s4) ["rock"; "rock"; "rock"] "paper" = 1%Z).
Proof.
  split.
  - intros self m Hm. eexists. split; [by apply record_user_move_valid |].
    cbn [transitions]. split.
    + intros Hlt. by destruct (Z.leb_spec (order self) (len (history self)));
        [lia |].
    + intros Hk. destruct (current_state_window self Hk) as (older & Ho & Hl).
      exists older, (current_state self). split_and!; [done.. |].
      intros state mv.
      destruct (Z.leb_spec (order self) (len (history self))); [| lia].
      apply count_learn.
  - eexists _, _. split_and!.
    + vm_compute. reflexivity.
    + reflexivity.
    + reflexivity.
    + vm_compute. reflexivity.
    + reflexivity.
    + reflexivity.
Qed.

Lemma record_user_move_learns_window_witness :
  let cold := MarkovPredictor_new 3 in
  let warm := {| order := 3; history := Deque ["rock"; "paper"; "rock"] 50;
                 transitions := ∅ |} in
  "paper" ∈ MOVES
  ∧ (len (history cold) < order cold)%Z
  ∧ (1 ≤ order warm ≤ len (history warm))%Z
  ∧ (∃ cold',
       record_user_move cold "paper" = Return tt cold'
       ∧ transitions cold' = transitions cold)
  ∧ (∃ warm',
       record_user_move warm "paper" = Return tt warm'
       ∧ ∃ older key,
           items (history warm) = older ++ key
           ∧ Z.of_nat (length key) = order warm
           ∧ ∀ state mv,
               count (transitions warm') state mv =
               (count (transitions warm) state mv
                + if bool_decide (state = key ∧ mv = "paper")
                  then 1 else 0)%Z).
Proof.
  intros cold warm.
  assert (Hm : "paper" ∈ MOVES) by by_computation.
  assert (Hcold : (len (history cold) < order cold)%Z) by (by vm_compute).
  assert (Hwarm : (1 ≤ order warm ≤ len (history warm))%Z).
  { vm_compute. by split. }
  split_and!; [done.. | |].
  - destruct (proj1 record_user_move_learns_window cold "paper" Hm)
      as (cold' & Hr & Hc & _).
    exists cold'. split; [exact Hr | exact (Hc Hcold)].
  - destruct (proj1 record_user_move_learns_window warm "paper" Hm)
      as (warm' & Hr & _ & Hw).
    exists warm'. split; [exact Hr | exact (Hw Hwarm)].
Defined.

(** ** The bounded history *)

Lemma deque_append_maxlen dq x : maxlen (deque_append dq x) = maxlen dq.
Proof. reflexivity. Qed.

Lemma deque_append_room dq x :
  length (items dq) < maxlen dq →
  items (deque_append dq x) = items dq ++ [x].
Proof.
  intros Hlt. unfold deque_append. cbn [items].
  rewrite length_app. cbn [length].
  by destruct (Nat.ltb_spec (maxlen dq) (length (items dq) + 1)); [lia |].
Qed.

Lemma deque_append_full dq x :
  length (items dq) = maxlen dq →
  items (deque_append dq x) = drop 1 (items dq ++ [x]).
Proof.
  intros Heq. unfold deque_append. cbn [items].
  rewrite length_app. cbn [length].
  by destruct (Nat.ltb_spec (maxlen dq) (length (items dq) + 1)); [| lia].
Qed.

Lemma deque_append_bounded dq x :
  length (items dq) ≤ maxlen dq →
  length (items (deque_append dq x)) ≤ maxlen dq.
Proof.
  intros Hle. destruct (decide (length (items dq) = maxlen dq)) as [Heq | Hne].
  - rewrite deque_append_full by done.
    rewrite length_drop, length_app. cbn [length]. lia.
  - rewrite deque_append_room by lia.
    rewrite length_app. cbn [length]. lia.
Qed.

Lemma reachable_history_bounded self :
  reachable self →
  maxlen (history self) = 50 ∧ length (items (history self)) ≤ 50.
Proof.
  induction 1 as [n | self m self' _ [IHmax IHlen] Hrec].
  - cbn. split; [done | lia].
  - destruct (decide (m ∈ MOVES)) as [Hm | Hm].
    + rewrite record_user_move_valid in Hrec by done.
      injection Hrec as <-. cbn [history].
      rewrite deque_append_maxlen. split; [done |].
      rewrite <- IHmax. apply deque_append_bounded. lia.
    + rewrite record_user_move_invalid in Hrec by done.
      by injection Hrec as <-.
Qed.

Lemma record_moves_reachable self ms :
  reachable self →
  ∃ self', record_moves self ms = Return tt self' ∧ reachable self'.
Proof.
  revert self. induction ms as [| m ms IH]; intros self Hreach.
  - by exists self.
  - destruct (record_user_move_returns self m) as [self1 Hrec].
    destruct (IH self1) as (self' & Hms & Hreach');
      [by eapply reachable_record |].
    exists self'. split; [| done].
    cbn [record_moves]. by rewrite Hrec.
Qed.

(** C8: whatever observations a fresh predictor is fed, its history never
    holds more than 50 entries; and once it holds 50, recording a valid
    move drops exactly the oldest entry and appends the new one, so that
    the length stays at 50. *)
Theorem history_capacity (n : Z) (observations : list string) :
  ∃ self,
    record_moves (MarkovPredictor_new n) observations = Return tt self
    ∧ length (items (history self)) ≤ 50
    ∧ (length (items (history self)) = 50 →
       ∀ m, m ∈ MOVES →
         ∃ oldest rest self',
           items (history self) = oldest :: rest
           ∧ record_user_move self m = Return tt self'
           ∧ items (history self') = rest ++ [m]
           ∧ length (items (history self')) = 50).
Proof.
  destruct (record_moves_reachable (MarkovPredictor_new n) observations)
    as (self & Hms & Hreach); [constructor |].
  exists self. split; [done |].
  destruct (reachable_history_bounded self Hreach) as [Hmax Hlen].
  split; [done |]. intros Hfull m Hm.
  destruct (items (history self)) as [| oldest rest] eqn:Hitems;
    [discriminate |].
  eexists oldest, rest, _. split; [done |].
  split; [by apply record_user_move_valid |].
  cbn [history]. rewrite deque_append_full by (rewrite Hitems; congruence).
  rewrite Hitems. cbn [app]. rewrite skipn_cons, drop_0. split; [done |].
  rewrite length_app. cbn [length] in *. lia.
Qed.

Lemma history_capacity_witness :
  ∃ self,
    record_moves (MarkovPredictor_new 3) (replicate 50 "rock" ++ ["paper"])
    = Return tt self
    ∧ ∃ oldest rest self',
        items (history self) = oldest :: rest
        ∧ record_user_move self "scissors" = Return tt self'
        ∧ items (history self') = rest ++ ["scissors"]
        ∧ length (items (history self')) = 50.
Proof.
  destruct (history_capacity 3 (replicate 50 "rock" ++ ["paper"]))
    as (self & Hms & _ & Hfull).
  exists self. split; [exact Hms |].
  apply Hfull; [| by_computation].
  vm_compute in Hms. injection Hms as <-. reflexivity.
Defined.

(** ** The first maximum of a table *)

Lemma max_from_first_max (seen : dict) i best best_v (rest : dict) :
  seen !! i = Some (best, best_v) →
  (∀ j k v, seen !! j = Some (k, v) → (v ≤ best_v)%Z) →
  (∀ j k v, j < i → seen !! j = Some (k, v) → (v < best_v)%Z) →
  first_max (seen ++ rest) (max_from best best_v rest).
Proof.
  revert seen i best best_v.
  induction rest as [| [k v] rest IH]; intros seen i best best_v Hi Hle Hlt.
  - rewrite app_nil_r. by exists i, best_v.
  - cbn [max_from]. rewrite cons_middle, app_assoc.
    pose proof (lookup_lt_Some _ _ _ Hi) as Hbound.
    destruct (Z.ltb_spec best_v v) as [Hv | Hv].
    + apply (IH _ (length seen)).
      * by rewrite lookup_app_r, Nat.sub_diag.
      * intros j k' v' Hj. apply lookup_app_Some in Hj as [Hj | [_ Hj]].
        -- specialize (Hle _ _ _ Hj). lia.
        -- apply list_lookup_singleton_Some in Hj as [_ [= _ ->]]. lia.
      * intros j k' v' Hjlt Hj. rewrite lookup_app_l in Hj by done.
        specialize (Hle _ _ _ Hj). lia.
    + apply (IH _ i).
      * by rewrite lookup_app_l.
      * intros j k' v' Hj. apply lookup_app_Some in Hj as [Hj | [_ Hj]].
        -- by eapply Hle.
        -- by apply list_lookup_singleton_Some in Hj as [_ [= _ ->]].
      * intros j k' v' Hjlt Hj. rewrite lookup_app_l in Hj by lia.
        by eapply Hlt.
Qed.

Lemma dict_max_first_max e (d : dict) :
  ∃ m, dict_max (e :: d) = Some m ∧ first_max (e :: d) m.
Proof.
  destruct e as [k v]. exists (max_from k v d). split; [done |].
  apply (max_from_first_max [(k, v)] 0); [done | |].
  - intros j k' v' Hj.
    apply list_lookup_singleton_Some in Hj as [_ [= _ ->]]. lia.
  - intros j k' v' Hj. lia.
Qed.

Lemma first_max_in_keys (d : dict) m : first_max d m → m ∈ dict_keys d.
Proof.
  intros (i & v & Hi & _). unfold dict_keys.
  apply list_elem_of_fmap. exists (m, v). split; [done |].
  by eapply list_elem_of_lookup_2.
Qed.

(** ** The overall frequencies *)

Lemma occurrences_cons m x h :
  occurrences m (x :: h) =
  ((if bool_decide (x = m) then 1 else 0) + occurrences m h)%Z.
Proof.
  unfold occurrences. rewrite filter_cons.
  case_decide.
  - rewrite bool_decide_eq_true_2 by done. cbn [length]. lia.
  - rewrite bool_decide_eq_false_2 by done. lia.
Qed.

Lemma occurrences_nonneg m h : (0 ≤ occurrences m h)%Z.
Proof. unfold occurrences. lia. Qed.

Lemma count_history_moves a b c h :
  Forall (λ m, m ∈ MOVES) h →
  count_history [("rock", a); ("paper", b); ("scissors", c)] h =
  inr [("rock", (a + occurrences "rock" h)%Z);
       ("paper", (b + occurrences "paper" h)%Z);
       ("scissors", (c + occurrences "scissors" h)%Z)].
Proof.
  intros Hh. revert a b c.
  induction Hh as [| m h Hm _ IH]; intros a b c.
  - cbn. by rewrite !Z.add_0_r.
  - rewrite !occurrences_cons.
    move_cases Hm; cbn; rewrite IH; repeat case_bool_decide; try done;
      by rewrite ?Z.add_0_l, ?Z.add_assoc.
Qed.

Lemma count_history_frequencies h :
  Forall (λ m, m ∈ MOVES) h →
  count_history ((λ m, (m, 0%Z)) <$> MOVES) h = inr (frequencies h).
Proof. intros Hh. cbn. by rewrite count_history_moves. Qed.

Lemma dict_sum_frequencies m h :
  Forall (λ m, m ∈ MOVES) (m :: h) → (0 < dict_sum (frequencies (m :: h)))%Z.
Proof.
  intros Hh. apply Forall_cons in Hh as [Hm _].
  unfold frequencies, dict_sum. cbn. rewrite !occurrences_cons.
  pose proof (occurrences_nonneg "rock" h).
  pose proof (occurrences_nonneg "paper" h).
  pose proof (occurrences_nonneg "scissors" h).
  move_cases Hm; cbn [foldr dict_values fmap list_fmap snd];
    repeat case_bool_decide; try done; lia.
Qed.

(** ** The data model is preserved *)

Lemma defaultdict_incr_keys (P : string → Prop) d k :
  Forall P (dict_keys d) → P k → Forall P (dict_keys (defaultdict_incr d k)).
Proof.
  intros Hd Hk. unfold dict_keys in *.
  induction d as [| [k0 v] d IH]; cbn.
  - by repeat constructor.
  - apply Forall_cons in Hd as [Hk0 Hd].
    destruct (String.eqb k0 k); cbn; constructor; auto.
Qed.

Lemma deque_append_Forall (P : string → Prop) dq x :
  Forall P (items dq) → P x → Forall P (items (deque_append dq x)).
Proof.
  intros Hdq Hx. unfold deque_append. cbn [items].
  assert (Forall P (items dq ++ [x])) by (apply Forall_app; auto).
  case_match; [by apply Forall_drop | done].
Qed.

Lemma model_ok_new n : model_ok (MarkovPredictor_new n).
Proof. split; [constructor | apply map_Forall_empty]. Qed.

Lemma model_ok_record self m self' :
  model_ok self →
  record_user_move self m = Return tt self' →
  model_ok self'.
Proof.
  intros [Hh Ht] Hrec.
  destruct (decide (m ∈ MOVES)) as [Hm | Hm].
  - rewrite record_user_move_valid in Hrec by done.
    injection Hrec as <-. split; cbn [history transitions].
    + by apply deque_append_Forall.
    + case_match; [| done].
      apply map_Forall_insert_2; [| done].
      apply defaultdict_incr_keys; [| done].
      destruct (transitions self !! current_state self) as [d |] eqn:Hd;
        cbn; [by eapply (Ht _ _ Hd) | constructor].
  - rewrite record_user_move_invalid in Hrec by done.
    by injection Hrec as <-.
Qed.

Lemma reachable_model_ok self : reachable self → model_ok self.
Proof.
  induction 1 as [n | self m self' _ IH Hrec].
  - apply model_ok_new.
  - by eapply model_ok_record.
Qed.

(** ** Predicting *)

Lemma predict_cold self :
  (len (history self) < order self)%Z →
  predict_next_user_move self = RandomChoice MOVES (λ x, Return x self).
Proof.
  intros Hlt. unfold predict_next_user_move.
  by destruct (Z.ltb_spec (len (history self)) (order self)); [| lia].
Qed.

Lemma predict_learned self e d :
  (order self ≤ len (history self))%Z →
  transitions self !! current_state self = Some (e :: d) →
  ∃ m, predict_next_user_move self = Return m self ∧ first_max (e :: d) m.
Proof.
  intros Hle Hd. unfold predict_next_user_move, return_max.
  destruct (Z.ltb_spec (len (history self)) (order self)); [lia |].
  rewrite Hd.
  destruct (dict_max_first_max e d) as (m & -> & Hm). by exists m.
Qed.

Lemma predict_fallback self :
  (order self ≤ len (history self))%Z →
  Forall (λ m, m ∈ MOVES) (items (history self)) →
  items (history self) ≠ [] →
  transitions self !! current_state self = None
  ∨ transitions self !! current_state self = Some [] →
  ∃ m, predict_next_user_move self = Return m self
       ∧ first_max (frequencies (items (history self))) m.
Proof.
  intros Hle Hh Hne Hd. unfold predict_next_user_move, return_max.
  destruct (Z.ltb_spec (len (history self)) (order self)); [lia |].
  rewrite count_history_frequencies by done.
  destruct (items (history self)) as [| x h] eqn:Hitems; [done |].
  pose proof (dict_sum_frequencies x h Hh) as Hsum.
  destruct (Z.eqb_spec (dict_sum (frequencies (x :: h))) 0) as [| _]; [lia |].
  destruct (dict_max_first_max ("rock", occurrences "rock" (x :: h))
              (tail (frequencies (x :: h)))) as (m & Hmax & Hm).
  change (dict_max (frequencies (x :: h)) = Some m) in Hmax.
  exists m. by destruct Hd as [-> | ->]; rewrite Hmax.
Qed.

Lemma predict_shape self :
  model_ok self →
  predict_next_user_move self = RandomChoice MOVES (λ x, Return x self)
  ∨ ∃ m, m ∈ MOVES ∧ predict_next_user_move self = Return m self.
Proof.
  intros [Hh Ht].
  destruct (Z.lt_ge_cases (len (history self)) (order self)) as [Hlt | Hle].
  { left. by apply predict_cold. }
  destruct (transitions self !! current_state self) as [[| e d] |] eqn:Hd.
  2: { right. destruct (predict_learned self e d Hle Hd) as (m & Hp & Hm).
       exists m. split; [| done].
       apply first_max_in_keys in Hm.
       pose proof (Ht _ _ Hd) as Hkeys. rewrite Forall_forall in Hkeys.
       by apply Hkeys. }
  all: destruct (decide (items (history self) = [])) as [Hnil | Hne].
  all: try (left; unfold predict_next_user_move; rewrite Hd, Hnil;
            by destruct (Z.ltb_spec (len (history self)) (order self));
              [lia |]).
  all: right; destruct (predict_fallback self Hle Hh Hne) as (m & Hp & Hm);
    [auto | exists m; split; [| done]].
  all: by apply first_max_in_keys in Hm.
Qed.

Lemma record_moves_reaches n ms self :
  record_moves (MarkovPredictor_new n) ms = Return tt self → reachable self.
Proof.
  intros Hms.
  destruct (record_moves_reachable (MarkovPredictor_new n) ms)
    as (self' & Hms' & Hreach); [constructor |].
  rewrite Hms in Hms'. by injection Hms' as ->.
Qed.

(** C3: on a predictor whose history holds moves and is at least [order]
    long (for a window length [order] of at least one), the prediction is
    a definite move.  The history ends in a key of exactly [order]
    entries; if the table holds counts under that key, the prediction is
    the first entry with the highest count in the iteration order of these
    counts, and otherwise it is the first move in the order of [MOVES]
    with the highest number of occurrences in the whole history. *)
Theorem predict_warm (self : MarkovPredictor) :
  model_ok self →
  (1 ≤ order self ≤ len (history self))%Z →
  ∃ older key m,
    items (history self) = older ++ key
    ∧ Z.of_nat (length key) = order self
    ∧ predict_next_user_move self = Return m self
    ∧ match transitions self !! key with
      | Some ((_ :: _) as next_counts) => first_max next_counts m
      | _ => first_max (frequencies (items (history self))) m
      end.
Proof.
  intros [Hh _] Hk.
  destruct (current_state_window self Hk) as (older & Ho & Hl).
  exists older, (current_state self).
  assert (Hne : items (history self) ≠ []).
  { unfold len in Hk. destruct (items (history self)); [cbn in Hk; lia | done]. }
  destruct (transitions self !! current_state self) as [[| e d] |] eqn:Hd.
  - destruct (predict_fallback self) as (m & Hp & Hm); [lia | auto..|].
    by exists m.
  - destruct (predict_learned self e d) as (m & Hp & Hm); [lia | done |].
    by exists m.
  - destruct (predict_fallback self) as (m & Hp & Hm); [lia | auto..|].
    by exists m.
Qed.

Lemma predict_warm_witness :
  let self := {| order := 3;
                 history := Deque ["rock"; "rock"; "paper"; "rock"; "rock"] 50;
                 transitions :=
                   {[ ["paper"; "rock"; "rock"] :=
                        [("scissors", 2%Z); ("rock", 5%Z); ("paper", 5%Z)] ]}
              |} in
  model_ok self
  ∧ (1 ≤ order self ≤ len (history self))%Z
  ∧ ∃ older key m,
      items (history self) = older ++ key
      ∧ Z.of_nat (length key) = order self
      ∧ predict_next_user_move self = Return m self
      ∧ match transitions self !! key with
        | Some ((_ :: _) as next_counts) => first_max next_counts m
        | _ => first_max (frequencies (items (history self))) m
        end.
Proof.
  intros self.
  assert (Hok : model_ok self).
  { split; [by_computation |]. apply map_Forall_singleton. by_computation. }
  assert (Hk : (1 ≤ order self ≤ len (history self))%Z).
  { vm_compute. by split. }
  exact (conj Hok (conj Hk (predict_warm self Hok Hk))).
Defined.

(** The tie between rock and paper under a key goes to the move that was
    recorded first under that key, here paper, although rock comes first
    in [MOVES]. *)
Example predict_tie_goes_to_first_recorded :
  ∃ self,
    record_moves (MarkovPredictor_new 3)
      ["rock"; "rock"; "rock"; "paper"; "rock"; "rock"; "rock"; "rock"]
    = Return tt self
    ∧ transitions self !! ["rock"; "rock"; "rock"]
      = Some [("paper", 1%Z); ("rock", 1%Z)]
    ∧ predict_next_user_move self = Return "paper" self.
Proof.
  eexists. split; [vm_compute; reflexivity |]. split; reflexivity.
Qed.

Lemma predict_warm_returns self :
  model_ok self →
  (1 ≤ order self ≤ len (history self))%Z →
  ∃ m, m ∈ MOVES ∧ predict_next_user_move self = Return m self.
Proof.
  intros Hok Hk.
  destruct (predict_shape self Hok) as [Hp | Hp]; [| done].
  pose proof Hok as [Hh _].
  assert (Hne : items (history self) ≠ []).
  { unfold len in Hk. destruct (items (history self)); [cbn in Hk; lia | done]. }
  destruct (transitions self !! current_state self) as [[| e d] |] eqn:Hd.
  - destruct (predict_fallback self) as (m & Hm & _); [lia | auto..|].
    congruence.
  - destruct (predict_learned self e d) as (m & Hm & _); [lia | done |].
    congruence.
  - destruct (predict_fallback self) as (m & Hm & _); [lia | auto..|].
    congruence.
Qed.

(** ** Choosing the counter move *)

Lemma choose_ai_move_results self :
  model_ok self →
  ∃ predictions,
    predictions ≠ []
    ∧ Forall (λ m, m ∈ MOVES) predictions
    ∧ results (choose_ai_move self) =
      (λ m, (inr (beats m, m), self)) <$> predictions.
Proof.
  intros Hok. unfold choose_ai_move.
  destruct (predict_shape self Hok) as [-> | (m & Hm & ->)].
  - exists MOVES. split; [done |]. split; [| done].
    apply Forall_forall. auto.
  - exists [m]. split; [done |]. split; [| done].
    by apply Forall_singleton.
Qed.

(** C6: on a predictor whose history and table hold moves, every way in
    which [choose_ai_move] can end is a normal return of a pair (selected,
    predicted) in which [predicted] is a move, [selected] defeats it and
    is the only move to do so, and the predictor is handed back as it was
    given; and the call does end in at least one such way. *)
Theorem choose_ai_move_counters (self : MarkovPredictor) :
  model_ok self →
  results (choose_ai_move self) ≠ []
  ∧ Forall (λ r,
      ∃ selected predicted,
        r = (inr (selected, predicted), self)
        ∧ predicted ∈ MOVES
        ∧ defeats selected predicted
        ∧ ∀ x, defeats x predicted → x = selected)
      (results (choose_ai_move self)).
Proof.
  intros Hok.
  destruct (choose_ai_move_results self Hok) as (ps & Hne & Hps & ->).
  split; [by destruct ps |].
  apply Forall_fmap. eapply Forall_impl; [exact Hps |].
  intros m Hm. exists (beats m), m. split_and!; [done.. | |].
  - by apply beats_defeats.
  - intros x. apply defeats_unique.
Qed.

Lemma choose_ai_move_counters_witness :
  let self := {| order := 3;
                 history := Deque ["paper"; "paper"; "rock"; "paper"] 50;
                 transitions := {[ ["paper"; "paper"; "rock"] :=
                                     [("paper", 1%Z)] ]} |} in
  model_ok self
  ∧ results (choose_ai_move self) = [(inr ("scissors", "paper"), self)]
  ∧ Forall (λ r,
      ∃ selected predicted,
        r = (inr (selected, predicted), self)
        ∧ predicted ∈ MOVES
        ∧ defeats selected predicted
        ∧ ∀ x, defeats x predicted → x = selected)
      (results (choose_ai_move self)).
Proof.
  intros self.
  assert (Hok : model_ok self).
  { split; [by_computation |]. apply map_Forall_singleton. by_computation. }
  split; [exact Hok |]. split; [reflexivity |].
  exact (proj2 (choose_ai_move_counters self Hok)).
Defined.

(** ** Determinism once warm *)

(** C10: on a predictor reached by recording moves, with a window length
    [order] of at least one and a history at least [order] long, the
    counting loop ends with a strictly positive total, the prediction is a
    plain return of a move with no random choice involved, and asking
    twice in a row gives the same move both times. *)
Theorem predict_warm_deterministic (self : MarkovPredictor) :
  reachable self →
  (1 ≤ order self ≤ len (history self))%Z →
  count_history ((λ m, (m, 0%Z)) <$> MOVES) (items (history self))
  = inr (frequencies (items (history self)))
  ∧ (0 < dict_sum (frequencies (items (history self))))%Z
  ∧ ∃ m,
      m ∈ MOVES
      ∧ predict_next_user_move self = Return m self
      ∧ results (predict_repeatedly 2 self) = [(inr [m; m], self)].
Proof.
  intros Hreach Hk.
  pose proof (reachable_model_ok self Hreach) as Hok.
  pose proof Hok as [Hh _].
  split; [by apply count_history_frequencies |].
  split.
  { unfold len in Hk.
    destruct (items (history self)) as [| x h]; [cbn in Hk; lia |].
    by apply dict_sum_frequencies. }
  destruct (predict_warm_returns self Hok Hk) as (m & Hm & Hp).
  exists m. split; [done |]. split; [done |].
  cbn [predict_repeatedly]. rewrite Hp. cbn [bind]. rewrite Hp. reflexivity.
Qed.

Lemma predict_warm_deterministic_witness :
  let self := {| order := 3;
                 history := Deque ["rock"; "paper"; "rock"; "rock"] 50;
                 transitions :=
                   {[ ["rock"; "paper"; "rock"] := [("rock", 1%Z)] ]} |} in
  reachable self
  ∧ (1 ≤ order self ≤ len (history self))%Z
  ∧ count_history ((λ m, (m, 0%Z)) <$> MOVES) (items (history self))
    = inr (frequencies (items (history self)))
  ∧ (0 < dict_sum (frequencies (items (history self))))%Z
  ∧ ∃ m,
      m ∈ MOVES
      ∧ predict_next_user_move self = Return m self
      ∧ results (predict_repeatedly 2 self) = [(inr [m; m], self)].
Proof.
  intros self.
  assert (Hreach : reachable self).
  { apply (record_moves_reaches 3 ["rock"; "paper"; "rock"; "rock"]).
    vm_compute. reflexivity. }
  assert (Hk : (1 ≤ order self ≤ len (history self))%Z).
  { vm_compute. by split. }
  exact (conj Hreach (conj Hk (predict_warm_deterministic self Hreach Hk))).
Defined.

(** ** Playing a round *)

Lemma outcome_values user_move ai_move :
  outcome user_move ai_move ∈ ["win"; "lose"; "draw"].
Proof. unfold outcome. repeat case_match; by_computation. Qed.

Lemma PlayResponse_new_valid user_move ai_move predicted info predictor :
  user_move ∈ MOVES → ai_move ∈ MOVES → predicted ∈ MOVES →
  PlayResponse_new user_move ai_move (outcome user_move ai_move) predicted
    info predictor
  = Return {| user_move := user_move; ai_move := ai_move;
              result := outcome user_move ai_move;
              predicted_next_user_move := predicted;
              model_info := info |} predictor.
Proof.
  intros Hu Ha Hp. unfold PlayResponse_new.
  by rewrite !bool_decide_eq_true_2 by auto using outcome_values.
Qed.

(** C1: in a round played on a reachable predictor with a valid move, the
    AI's move and the prediction are exactly what [choose_ai_move] yields
    on the predictor as it is before the round, the result is the outcome
    of the user's move against that AI move, and the predictor after the
    round is the one [record_user_move] produces from the predictor before
    the round; the counters reported are those of the updated predictor. *)
Theorem play_chooses_before_recording (self : MarkovPredictor)
    (move : string) :
  reachable self →
  move ∈ MOVES →
  ∃ self',
    record_user_move self move = Return tt self'
    ∧ Forall2 (λ chosen played,
        ∃ ai predicted,
          chosen = (inr (ai, predicted), self)
          ∧ played =
            (inr {| user_move := move; ai_move := ai;
                    result := outcome move ai;
                    predicted_next_user_move := predicted;
                    model_info :=
                      [("history_len", len (history self'));
                       ("learned_states",
                        Z.of_nat (size (transitions self')))] |},
             self'))
        (results (choose_ai_move self))
        (results (play self {| req_user_move := move |})).
Proof.
  intros Hreach Hmove.
  destruct (record_user_move_returns self move) as [self' Hrec].
  exists self'. split; [done |].
  unfold play. cbn [req_user_move].
  rewrite (bool_decide_eq_true_2 _ Hmove). cbn [negb].
  rewrite results_bind.
  destruct (choose_ai_move_results self (reachable_model_ok self Hreach))
    as (ps & _ & Hps & ->).
  induction Hps as [| m ps Hm _ IH]; [constructor |].
  rewrite fmap_cons, bind_cons. cbn [app].
  rewrite Hrec. cbn [bind].
  rewrite PlayResponse_new_valid by auto using beats_in_MOVES.
  constructor; [| exact IH]. by exists (beats m), m.
Qed.

Lemma play_chooses_before_recording_witness :
  let self := {| order := 3;
                 history := Deque ["rock"; "paper"; "scissors"; "rock"] 50;
                 transitions :=
                   {[ ["rock"; "paper"; "scissors"] := [("rock", 1%Z)] ]}
              |} in
  reachable self
  ∧ "scissors" ∈ MOVES
  ∧ ∃ self',
      record_user_move self "scissors" = Return tt self'
      ∧ Forall2 (λ chosen played,
          ∃ ai predicted,
            chosen = (inr (ai, predicted), self)
            ∧ played =
              (inr {| user_move := "scissors"; ai_move := ai;
                      result := outcome "scissors" ai;
                      predicted_next_user_move := predicted;
                      model_info :=
                        [("history_len", len (history self'));
                         ("learned_states",
                          Z.of_nat (size (transitions self')))] |},
               self'))
          (results (choose_ai_move self))
          (results (play self {| req_user_move := "scissors" |})).
Proof.
  intros self.
  assert (Hreach : reachable self).
  { apply (record_moves_reaches 3 ["rock"; "paper"; "scissors"; "rock"]).
    vm_compute. reflexivity. }
  assert (Hmove : "scissors" ∈ MOVES) by by_computation.
  exact (conj Hreach (conj Hmove
    (play_chooses_before_recording self "scissors" Hreach Hmove))).
Defined.

(** * Further properties of the code *)

(** ** [beats] and [outcome] on arbitrary strings *)

(** X1: [beats] answers every string, valid or not, with a valid move that
    differs from the string; everything except rock and paper is answered
    with rock; and on the moves it is injective. *)
Theorem beats_total (m : string) :
  beats m ∈ MOVES
  ∧ beats m ≠ m
  ∧ (m ≠ "rock" → m ≠ "paper" → beats m = "rock")
  ∧ (∀ m', beats m = beats m' → m ∈ MOVES → m' ∈ MOVES → m = m').
Proof.
  split_and!.
  - apply beats_in_MOVES.
  - unfold beats.
    destruct (String.eqb_spec m "rock") as [-> | ?]; [done |].
    destruct (String.eqb_spec m "paper") as [-> | ?]; [done |].
    congruence.
  - intros Hr Hp. unfold beats.
    destruct (String.eqb_spec m "rock"); [done |].
    by destruct (String.eqb_spec m "paper").
  - intros m' Heq Hm Hm'. move_cases Hm; move_cases Hm'; done.
Qed.

Lemma beats_total_witness :
  "lizard" ≠ "rock" ∧ "lizard" ≠ "paper" ∧ beats "lizard" = "rock"
  ∧ (beats "rock" = beats "rock" → "rock" ∈ MOVES → "rock" ∈ MOVES →
     "rock" = "rock").
Proof.
  assert (Hr : "lizard" ≠ "rock") by by_computation.
  assert (Hp : "lizard" ≠ "paper") by by_computation.
  split_and!; [done.. | |].
  - exact (proj1 (proj2 (proj2 (beats_total "lizard"))) Hr Hp).
  - exact (proj2 (proj2 (proj2 (beats_total "rock"))) "rock").
Defined.

Lemma defeats_valid a b : defeats a b → a ∈ MOVES ∧ b ∈ MOVES.
Proof.
  unfold defeats, MOVES. set_unfold.
  intros [[= -> ->] | [[= -> ->] | [[= -> ->] | []]]]; auto.
Qed.

Lemma outcome_win_defeats a b : outcome a b = "win" ↔ defeats a b.
Proof.
  unfold outcome, defeats. split.
  - destruct (String.eqb_spec a b); [done |].
    destruct (String.eqb_spec a "rock"), (String.eqb_spec b "scissors"),
      (String.eqb_spec a "paper"), (String.eqb_spec b "rock"),
      (String.eqb_spec a "scissors"), (String.eqb_spec b "paper");
      cbn; intros; subst; try done; by_computation.
  - set_unfold.
    intros [[= -> ->] | [[= -> ->] | [[= -> ->] | []]]]; reflexivity.
Qed.

Lemma outcome_draw_eq a b : outcome a b = "draw" ↔ a = b.
Proof.
  unfold outcome. destruct (String.eqb_spec a b) as [-> | Hne]; [done |].
  split; [| done]. by repeat case_match.
Qed.

(** X2: the characterisation of [outcome] needs no valid moves: for any
    two strings it is "draw" exactly when they are equal, "win" exactly
    when the first defeats the second, and "lose" otherwise; so an unknown
    symbol never wins, and a valid move played against an unknown symbol
    loses. *)
Theorem outcome_any_strings (user_move ai_move : string) :
  (outcome user_move ai_move = "draw" ↔ user_move = ai_move)
  ∧ (outcome user_move ai_move = "win" ↔ defeats user_move ai_move)
  ∧ (outcome user_move ai_move = "lose" ↔
       user_move ≠ ai_move ∧ ¬ defeats user_move ai_move)
  ∧ (user_move ≠ ai_move →
     user_move ∉ MOVES ∨ ai_move ∉ MOVES →
     outcome user_move ai_move = "lose").
Proof.
  pose proof (outcome_draw_eq user_move ai_move) as Hd.
  pose proof (outcome_win_defeats user_move ai_move) as Hw.
  assert (Hl : outcome user_move ai_move = "lose" ↔
               user_move ≠ ai_move ∧ ¬ defeats user_move ai_move).
  { rewrite <- Hd, <- Hw. pose proof (outcome_values user_move ai_move) as Hv.
    set_unfold. destruct Hv as [-> | [-> | [-> | []]]]; split; try done.
    - by intros [_ ?].
    - by intros [? _]. }
  split_and!; [done.. |].
  intros Hne Hinv. apply Hl. split; [done |].
  intros [Hu Ha]%defeats_valid. by destruct Hinv.
Qed.

Lemma outcome_any_strings_witness :
  "rock" ≠ "spock" ∧ ("rock" ∉ MOVES ∨ "spock" ∉ MOVES)
  ∧ outcome "rock" "spock" = "lose".
Proof.
  assert (Hne : "rock" ≠ "spock") by by_computation.
  assert (Hinv : "rock" ∉ MOVES ∨ "spock" ∉ MOVES) by (right; by_computation).
  split_and!; [done.. |].
  exact (proj2 (proj2 (proj2 (outcome_any_strings "rock" "spock"))) Hne Hinv).
Defined.

(** X3: between valid moves the outcome is antisymmetric: one side wins
    exactly when the other side loses, and a draw is a draw for both. *)
Theorem outcome_antisymmetric (a b : string) :
  a ∈ MOVES → b ∈ MOVES →
  (outcome a b = "win" ↔ outcome b a = "lose")
  ∧ (outcome a b = "lose" ↔ outcome b a = "win")
  ∧ (outcome a b = "draw" ↔ outcome b a = "draw").
Proof.
  intros Ha Hb. move_cases Ha; move_cases Hb; by_computation.
Qed.

Lemma outcome_antisymmetric_witness :
  "paper" ∈ MOVES ∧ "rock" ∈ MOVES
  ∧ (outcome "paper" "rock" = "win" ↔ outcome "rock" "paper" = "lose")
  ∧ (outcome "paper" "rock" = "lose" ↔ outcome "rock" "paper" = "win")
  ∧ (outcome "paper" "rock" = "draw" ↔ outcome "rock" "paper" = "draw").
Proof.
  assert (Ha : "paper" ∈ MOVES) by by_computation.
  assert (Hb : "rock" ∈ MOVES) by by_computation.
  exact (conj Ha (conj Hb (outcome_antisymmetric "paper" "rock" Ha Hb))).
Defined.

(** ** The [/play] handler *)

Lemma play_results self move self' :
  reachable self →
  move ∈ MOVES →
  record_user_move self move = Return tt self' →
  ∃ predictions,
    predictions ≠ []
    ∧ Forall (λ p, p ∈ MOVES) predictions
    ∧ results (play self {| req_user_move := move |}) =
      (λ p, (inr {| user_move := move; ai_move := beats p;
                    result := outcome move (beats p);
                    predicted_next_user_move := p;
                    model_info :=
                      [("history_len", len (history self'));
                       ("learned_states",
                        Z.of_nat (size (transitions self')))] |},
             self')) <$> predictions.
Proof.
  intros Hreach Hmove Hrec.
  destruct (choose_ai_move_results self (reachable_model_ok self Hreach))
    as (ps & Hne & Hps & Hchoose).
  exists ps. split; [done |]. split; [done |].
  unfold play. cbn [req_user_move].
  rewrite (bool_decide_eq_true_2 _ Hmove). cbn [negb].
  rewrite results_bind, Hchoose. clear Hne Hchoose.
  induction Hps as [| p ps Hp _ IH]; [done |].
  rewrite !fmap_cons, bind_cons, IH. cbn [app].
  rewrite Hrec. cbn [bind].
  by rewrite PlayResponse_new_valid by auto using beats_in_MOVES.
Qed.



Lemma outcome_against_counter move p :
  move ∈ MOVES → p ∈ MOVES →
  (outcome move (beats p) = "lose" ↔ move = p)
  ∧ (outcome move (beats p) = "draw" ↔ move = beats p)
  ∧ (outcome move (beats p) = "win" ↔ move = beats (beats p)).
Proof. intros Hm Hp. move_cases Hm; move_cases Hp; by_computation. Qed.

(** X5: in a round on a reachable predictor with a valid move, the AI's
    move is the counter to the reported prediction, and the result tells
    how the user's move relates to that prediction: the user loses exactly
    when the prediction was right, draws exactly when playing the AI's own
    move, and wins exactly when playing the move that beats the AI's. *)
Theorem play_result_follows_prediction (self : MarkovPredictor)
    (move : string) :
  reachable self →
  move ∈ MOVES →
  Forall (λ r,
    ∃ resp self',
      r = (inr resp, self')
      ∧ ai_move resp = beats (predicted_next_user_move resp)
      ∧ (result resp = "lose" ↔ move = predicted_next_user_move resp)
      ∧ (result resp = "draw" ↔ move = ai_move resp)
      ∧ (result resp = "win" ↔ move = beats (ai_move resp)))
    (results (play self {| req_user_move := move |})).
Proof.
  intros Hreach Hmove.
  destruct (record_user_move_returns self move) as [self' Hrec].
  destruct (play_results self move self' Hreach Hmove Hrec)
    as (ps & _ & Hps & ->).
  apply Forall_fmap. eapply Forall_impl; [exact Hps |].
  intros p Hp. eexists _, self'. split; [reflexivity |]. cbn.
  split; [done |]. by apply outcome_against_counter.
Qed.

Lemma play_result_follows_prediction_witness :
  let self := {| order := 3;
                 history := Deque ["rock"; "paper"; "scissors"; "rock"] 50;
                 transitions :=
                   {[ ["rock"; "paper"; "scissors"] := [("rock", 1%Z)] ]}
              |} in
  reachable self
  ∧ "rock" ∈ MOVES
  ∧ Forall (λ r,
      ∃ resp self',
        r = (inr resp, self')
        ∧ ai_move resp = beats (predicted_next_user_move resp)
        ∧ (result resp = "lose" ↔ "rock" = predicted_next_user_move resp)
        ∧ (result resp = "draw" ↔ "rock" = ai_move resp)
        ∧ (result resp = "win" ↔ "rock" = beats (ai_move resp)))
      (results (play self {| req_user_move := "rock" |})).
Proof.
  intros self.
  assert (Hreach : reachable self).
  { apply (record_moves_reaches 3 ["rock"; "paper"; "scissors"; "rock"]).
    vm_compute. reflexivity. }
  assert (Hmove : "rock" ∈ MOVES) by by_computation.
  exact (conj Hreach (conj Hmove
    (play_result_follows_prediction self "rock" Hreach Hmove))).
Defined.

(** ** What recording keeps and what it forgets *)

Lemma last_n_all {A} n (l : list A) : length l ≤ n → last_n n l = l.
Proof.
  intros Hle. unfold last_n. by replace (length l - n) with 0 by lia.
Qed.

Lemma length_last_n {A} n (l : list A) :
  length (last_n n l) = length l `min` n.
Proof. unfold last_n. rewrite length_drop. lia. Qed.

Lemma last_n_app {A} n (l r : list A) :
  last_n n (last_n n l ++ r) = last_n n (l ++ r).
Proof.
  destruct (decide (length l ≤ n)) as [Hle | Hgt].
  - by rewrite (last_n_all n l).
  - unfold last_n. rewrite !length_app, length_drop.
    replace (length l - (length l - n) + length r - n) with (length r)
      by lia.
    replace (length l + length r - n) with ((length l - n) + length r)
      by lia.
    rewrite <- drop_drop. by rewrite (drop_app_le l) by lia.
Qed.

Lemma deque_append_last_n dq x :
  length (items dq) ≤ maxlen dq →
  items (deque_append dq x) = last_n (maxlen dq) (items dq ++ [x]).
Proof.
  intros Hle. destruct (decide (length (items dq) = maxlen dq)) as [Heq | Hne].
  - rewrite deque_append_full by done. unfold last_n.
    rewrite length_app. cbn [length]. f_equal. lia.
  - rewrite deque_append_room by lia.
    rewrite last_n_all; [done |]. rewrite length_app. cbn [length]. lia.
Qed.

Lemma valid_moves_cons m ms :
  valid_moves (m :: ms) =
  if bool_decide (m ∈ MOVES) then m :: valid_moves ms else valid_moves ms.
Proof.
  unfold valid_moves. rewrite filter_cons.
  by case_decide; [rewrite bool_decide_eq_true_2 | rewrite bool_decide_eq_false_2].
Qed.

Lemma record_moves_history self ms :
  maxlen (history self) = 50 →
  length (items (history self)) ≤ 50 →
  ∃ self',
    record_moves self ms = Return tt self'
    ∧ order self' = order self
    ∧ maxlen (history self') = 50
    ∧ items (history self')
      = last_n 50 (items (history self) ++ valid_moves ms).
Proof.
  revert self. induction ms as [| m ms IH]; intros self Hmax Hlen.
  - exists self. split_and!; [done.. |].
    by rewrite app_nil_r, last_n_all.
  - cbn [record_moves]. rewrite valid_moves_cons.
    destruct (decide (m ∈ MOVES)) as [Hm | Hm].
    + rewrite bool_decide_eq_true_2 by done.
      rewrite record_user_move_valid by done. cbn [bind].
      match goal with |- ∃ _, record_moves ?s _ = _ ∧ _ =>
        destruct (IH s) as (self' & Hms & Hord & Hmax' & Hitems)
      end.
      { cbn. by rewrite Hmax. }
      { cbn [history]. rewrite <- Hmax. apply deque_append_bounded. lia. }
      exists self'. split_and!; [done.. |].
      rewrite Hitems. cbn [history].
      rewrite deque_append_last_n by lia. rewrite Hmax.
      by rewrite last_n_app, <- app_assoc.
    + rewrite bool_decide_eq_false_2 by done.
      rewrite record_user_move_invalid by done. cbn [bind].
      by apply IH.
Qed.

(** X6: the history of a predictor is exactly the last 50 of the valid
    moves it was given, in the order given: invalid inputs leave no trace
    and older moves are forgotten first come, first out.  The window
    length [order] never changes. *)
Theorem history_is_last_50 (n : Z) (inputs : list string) :
  ∃ self,
    record_moves (MarkovPredictor_new n) inputs = Return tt self
    ∧ order self = n
    ∧ items (history self) = last_n 50 (valid_moves inputs)
    ∧ len (history self) = Z.of_nat (length (valid_moves inputs) `min` 50).
Proof.
  destruct (record_moves_history (MarkovPredictor_new n) inputs)
    as (self & Hms & Hord & _ & Hitems); [done | cbn; lia |].
  exists self. split_and!; [done.. |].
  unfold len. by rewrite Hitems, length_last_n.
Qed.

(** X7: recording never takes anything out of the transition table.  For
    every predictor and every input, the window length stays, no count
    goes down, no state is dropped, and the number of states grows by one
    at most. *)
Theorem record_user_move_only_adds (self : MarkovPredictor) (m : string) :
  ∃ self',
    record_user_move self m = Return tt self'
    ∧ order self' = order self
    ∧ (∀ state mv,
         (count (transitions self) state mv
          ≤ count (transitions self') state mv)%Z)
    ∧ dom (transitions self) ⊆ dom (transitions self')
    ∧ size (transitions self) ≤ size (transitions self')
      ≤ S (size (transitions self)).
Proof.
  destruct (decide (m ∈ MOVES)) as [Hm | Hm].
  - eexists. split; [by apply record_user_move_valid |].
    cbn [order transitions]. split; [done |].
    destruct (order self <=? len (history self))%Z.
    + split_and!.
      * intros state mv. rewrite count_learn. case_bool_decide; lia.
      * apply dom_insert_subseteq.
      * unfold learn. rewrite map_size_insert.
        destruct (transitions self !! current_state self); cbn; lia.
      * unfold learn. rewrite map_size_insert.
        destruct (transitions self !! current_state self); cbn; lia.
    + split_and!; [intros; lia | done | lia | lia].
  - exists self. split; [by apply record_user_move_invalid |].
    split_and!; [done | intros; lia | done | lia | lia].
Qed.

(** ** The shape of the transition table *)

Lemma defaultdict_incr_nonempty d k : defaultdict_incr d k ≠ [].
Proof. destruct d as [| [k0 v] d]; cbn; [done |]. by case_match. Qed.

Lemma defaultdict_incr_dict_keys d k :
  dict_keys (defaultdict_incr d k) =
  if bool_decide (k ∈ dict_keys d) then dict_keys d else dict_keys d ++ [k].
Proof.
  unfold dict_keys. induction d as [| [k0 v] d IH]; cbn.
  - by rewrite bool_decide_eq_false_2 by apply not_elem_of_nil.
  - destruct (String.eqb_spec k0 k) as [-> | Hne]; cbn.
    + by rewrite bool_decide_eq_true_2 by apply list_elem_of_here.
    + rewrite IH. case_bool_decide as Hk.
      * by rewrite bool_decide_eq_true_2 by by apply list_elem_of_further.
      * rewrite bool_decide_eq_false_2; [done |].
        intros [? | ?]%elem_of_cons; congruence.
Qed.

Lemma defaultdict_incr_NoDup d k :
  NoDup (dict_keys d) → NoDup (dict_keys (defaultdict_incr d k)).
Proof.
  intros Hd. rewrite defaultdict_incr_dict_keys.
  case_bool_decide as Hk; [done |].
  apply NoDup_app. split; [done |]. split; [| apply NoDup_singleton].
  intros x Hx ->%list_elem_of_singleton. done.
Qed.

Lemma defaultdict_incr_counts (P : string → Prop) d k :
  Forall (λ kv, P kv.1 ∧ (1 ≤ kv.2)%Z) d → P k →
  Forall (λ kv, P kv.1 ∧ (1 ≤ kv.2)%Z) (defaultdict_incr d k).
Proof.
  intros Hd Hk. induction Hd as [| [k0 v] d [Hk0 Hv] Hd IH]; cbn in *.
  - by apply Forall_singleton.
  - destruct (String.eqb k0 k); constructor; cbn; try done.
    split; [done | lia].
Qed.

Lemma current_state_moves self :
  Forall (λ m, m ∈ MOVES) (items (history self)) →
  Forall (λ m, m ∈ MOVES) (current_state self).
Proof. intros Hh. unfold current_state, slice_from. by apply Forall_drop. Qed.

Lemma reachable_entries self :
  reachable self → map_Forall (entry_ok (order self)) (transitions self).
Proof.
  induction 1 as [n | self m self' Hreach IH Hrec].
  - apply map_Forall_empty.
  - destruct (decide (m ∈ MOVES)) as [Hm | Hm].
    2: { rewrite record_user_move_invalid in Hrec by done.
         by injection Hrec as <-. }
    rewrite record_user_move_valid in Hrec by done.
    injection Hrec as <-. cbn [order transitions].
    destruct (Z.leb_spec (order self) (len (history self))) as [Hle | _];
      [| done].
    apply map_Forall_insert_2; [| done].
    destruct (reachable_model_ok self Hreach) as [Hh _].
    destruct (reachable_history_bounded self Hreach) as [_ Hlen].
    assert (Hd :
      NoDup (dict_keys (default [] (transitions self !! current_state self)))
      ∧ Forall (λ kv, kv.1 ∈ MOVES ∧ (1 ≤ kv.2)%Z)
          (default [] (transitions self !! current_state self))).
    { destruct (transitions self !! current_state self) as [d |] eqn:Hd;
        cbn; [| by split; constructor].
      by destruct (IH _ _ Hd) as (_ & ? & ? & _). }
    destruct Hd as [Hnd Hcs].
    split_and!.
    + apply defaultdict_incr_nonempty.
    + by apply defaultdict_incr_NoDup.
    + by apply (defaultdict_incr_counts (λ k, k ∈ MOVES)).
    + by apply current_state_moves.
    + intros Hn.
      destruct (current_state_window self) as (_ & _ & Hl); [lia |].
      split; [done |]. unfold len in Hle. lia.
Qed.

(** X8: every entry of the transition table of a reachable predictor is
    well formed: the counts under a key are never empty, list each move at
    most once, hold moves only and are all at least one; the key is made
    of moves and, for a window length of at least one, has exactly that
    length (which is then at most 50). *)
Theorem learned_entries_well_formed (self : MarkovPredictor)
    (key : list string) (d : dict) :
  reachable self →
  transitions self !! key = Some d →
  d ≠ []
  ∧ NoDup (dict_keys d)
  ∧ Forall (λ kv, kv.1 ∈ MOVES ∧ (1 ≤ kv.2)%Z) d
  ∧ Forall (λ m, m ∈ MOVES) key
  ∧ ((1 ≤ order self)%Z →
     Z.of_nat (length key) = order self ∧ (order self ≤ 50)%Z).
Proof.
  intros Hreach Hd. exact (reachable_entries self Hreach key d Hd).
Qed.

Lemma learned_entries_well_formed_witness :
  let self := {| order := 3;
                 history := Deque ["rock"; "paper"; "scissors"; "rock"] 50;
                 transitions :=
                   {[ ["rock"; "paper"; "scissors"] := [("rock", 1%Z)] ]}
              |} in
  let key := ["rock"; "paper"; "scissors"] in
  let d := [("rock", 1%Z)] in
  reachable self
  ∧ transitions self !! key = Some d
  ∧ d ≠ []
  ∧ NoDup (dict_keys d)
  ∧ Forall (λ kv, kv.1 ∈ MOVES ∧ (1 ≤ kv.2)%Z) d
  ∧ Forall (λ m, m ∈ MOVES) key
  ∧ ((1 ≤ order self)%Z →
     Z.of_nat (length key) = order self ∧ (order self ≤ 50)%Z).
Proof.
  intros self key d.
  assert (Hreach : reachable self).
  { apply (record_moves_reaches 3 ["rock"; "paper"; "scissors"; "rock"]).
    vm_compute. reflexivity. }
  assert (Hd : transitions self !! key = Some d) by reflexivity.
  exact (conj Hreach (conj Hd
    (learned_entries_well_formed self key d Hreach Hd))).
Defined.

(** X9: a predictor whose window length exceeds the capacity of the
    history, 50, never learns: however many moves it records, its table
    stays empty and its prediction stays a random choice among the three
    moves. *)
Theorem order_beyond_capacity_never_learns (self : MarkovPredictor) :
  reachable self →
  (50 < order self)%Z →
  transitions self = ∅
  ∧ predict_next_user_move self = RandomChoice MOVES (λ x, Return x self).
Proof.
  intros Hreach Hord.
  destruct (reachable_history_bounded self Hreach) as [_ Hlen].
  split; [| apply predict_cold; unfold len; lia].
  clear Hlen. induction Hreach as [n | self m self' Hreach IH Hrec]; [done |].
  destruct (reachable_history_bounded self Hreach) as [_ Hlen].
  destruct (decide (m ∈ MOVES)) as [Hm | Hm].
  - rewrite record_user_move_valid in Hrec by done.
    injection Hrec as <-. cbn [order transitions] in *.
    destruct (Z.leb_spec (order self) (len (history self))) as [Hle | _];
      [unfold len in Hle; lia | by apply IH].
  - rewrite record_user_move_invalid in Hrec by done.
    injection Hrec as <-. by apply IH.
Qed.

Lemma order_beyond_capacity_never_learns_witness :
  let self := {| order := 51;
                 history := Deque ["rock"; "paper"; "rock"] 50;
                 transitions := ∅ |} in
  reachable self
  ∧ (50 < order self)%Z
  ∧ transitions self = ∅
  ∧ predict_next_user_move self = RandomChoice MOVES (λ x, Return x self).
Proof.
  intros self.
  assert (Hreach : reachable self).
  { apply (record_moves_reaches 51 ["rock"; "paper"; "rock"]).
    vm_compute. reflexivity. }
  assert (Hord : (50 < order self)%Z) by (by vm_compute).
  exact (conj Hreach (conj Hord
    (order_beyond_capacity_never_learns self Hreach Hord))).
Defined.




(** ** Reset and the life of the application *)

(** X11: a reset forgets everything, whatever the predictor was: the next
    prediction is a random choice among the three moves on a fresh
    predictor of window length 3, and a round played right after the
    reset reports a history of length 1 and no learned state. *)
Theorem reset_forgets (self : MarkovPredictor) (move : string) :
  move ∈ MOVES →
  results (bind (reset self) (λ _ p, predict_next_user_move p))
  = (λ m, (inr m, MarkovPredictor_new 3)) <$> MOVES
  ∧ results (bind (reset self) (λ _ p, play p {| req_user_move := move |}))
    = (λ p, (inr {| user_move := move; ai_move := beats p;
                    result := outcome move (beats p);
                    predicted_next_user_move := p;
                    model_info := [("history_len", 1%Z);
                                   ("learned_states", 0%Z)] |},
             {| order := 3; history := Deque [move] 50;
                transitions := ∅ |})) <$> MOVES.
Proof.
  intros Hmove. split; [reflexivity |].
  unfold reset. cbn [bind]. move_cases Hmove; vm_compute; reflexivity.
Qed.

Lemma reset_forgets_witness :
  let self := {| order := 3;
                 history := Deque ["rock"; "paper"; "scissors"; "rock"] 50;
                 transitions :=
                   {[ ["rock"; "paper"; "scissors"] := [("rock", 1%Z)] ]}
              |} in
  "paper" ∈ MOVES
  ∧ results (bind (reset self) (λ _ p, predict_next_user_move p))
    = (λ m, (inr m, MarkovPredictor_new 3)) <$> MOVES
  ∧ results (bind (reset self)
               (λ _ p, play p {| req_user_move := "paper" |}))
    = (λ p, (inr {| user_move := "paper"; ai_move := beats p;
                    result := outcome "paper" (beats p);
                    predicted_next_user_move := p;
                    model_info := [("history_len", 1%Z);
                                   ("learned_states", 0%Z)] |},
             {| order := 3; history := Deque ["paper"] 50;
                transitions := ∅ |})) <$> MOVES.
Proof.
  intros self.
  assert (Hmove : "paper" ∈ MOVES) by by_computation.
  exact (conj Hmove (reset_forgets self "paper" Hmove)).
Defined.

Lemma play_after self req predictor' :
  reachable self →
  predictor' ∈ (results (play self req)).*2 →
  predictor' = self
  ∨ record_user_move self (req_user_move req) = Return tt predictor'.
Proof.
  intros Hreach Hin. destruct req as [move].
  destruct (decide (move ∈ MOVES)) as [Hmove | Hmove].
  - right. cbn [req_user_move].
    destruct (record_user_move_returns self move) as [self' Hrec].
    destruct (play_results self move self' Hreach Hmove Hrec)
      as (ps & _ & _ & Hplay).
    rewrite Hplay, <- list_fmap_compose in Hin.
    apply list_elem_of_fmap in Hin as (p & -> & _). exact Hrec.
  - left. unfold play in Hin. cbn [req_user_move] in Hin.
    rewrite (bool_decide_eq_false_2 _ Hmove) in Hin. cbn in Hin.
    by apply list_elem_of_singleton in Hin.
Qed.

(** X12: over the whole life of the application, whatever requests are
    served in whatever order, the module-level predictor has window length
    3 and is one that arises from a fresh predictor by recording moves:
    what holds of reachable predictors holds of the running server. *)
Theorem served_predictor_reachable (predictor : MarkovPredictor) :
  served predictor →
  order predictor = 3%Z ∧ reachable predictor.
Proof.
  induction 1 as [| p rq p' _ [IHord IHreach] Hafter].
  - split; [done | constructor].
  - destruct rq as [| req |]; cbn in Hafter.
    + apply list_elem_of_singleton in Hafter as ->. by split.
    + destruct (play_after p req p' IHreach Hafter) as [-> | Hrec];
        [by split |].
      split; [| by eapply reachable_record].
      destruct (decide (req_user_move req ∈ MOVES)) as [Hm | Hm].
      * rewrite record_user_move_valid in Hrec by done.
        by injection Hrec as <-.
      * rewrite record_user_move_invalid in Hrec by done.
        by injection Hrec as <-.
    + apply list_elem_of_singleton in Hafter as ->.
      split; [done | constructor].
Qed.

Lemma served_predictor_reachable_witness :
  let predictor := {| order := 3; history := Deque ["rock"] 50;
                      transitions := ∅ |} in
  served predictor
  ∧ order predictor = 3%Z ∧ reachable predictor.
Proof.
  intros predictor.
  assert (Hserved : served predictor).
  { apply (served_request (MarkovPredictor_new 3)
             (PostPlay {| req_user_move := "rock" |}));
      [apply (served_request (MarkovPredictor_new 3) PostReset);
         [apply served_start | apply list_elem_of_here] |].
    vm_compute. apply list_elem_of_here. }
  exact (conj Hserved (served_predictor_reachable predictor Hserved)).
Defined.

(** ** Cold and warm *)

(** X13: a fresh predictor with a window length between 1 and 50 is cold
    exactly as long as it has been given fewer valid moves than its window
    length: until then the prediction is a random choice among the three
    moves, and from then on it is a definite move, whatever else is
    recorded. *)
Theorem warm_after_order_valid_moves (n : Z) (inputs : list string) :
  (1 ≤ n ≤ 50)%Z →
  ∃ self,
    record_moves (MarkovPredictor_new n) inputs = Return tt self
    ∧ if bool_decide (Z.of_nat (length (valid_moves inputs)) < n)%Z
      then predict_next_user_move self
           = RandomChoice MOVES (λ x, Return x self)
      else ∃ m, m ∈ MOVES ∧ predict_next_user_move self = Return m self.
Proof.
  intros Hn.
  destruct (record_moves_history (MarkovPredictor_new n) inputs)
    as (self & Hms & Hord & _ & Hitems); [done | cbn; lia |].
  exists self. split; [done |].
  assert (Hlen : len (history self)
                 = Z.of_nat (length (valid_moves inputs) `min` 50)).
  { unfold len. by rewrite Hitems, length_last_n. }
  change (order self = n) in Hord.
  case_bool_decide as Hcold.
  - apply predict_cold. lia.
  - apply predict_warm_returns; [| lia].
    apply reachable_model_ok. by eapply record_moves_reaches.
Qed.

Lemma warm_after_order_valid_moves_witness :
  (1 ≤ 3 ≤ 50)%Z
  ∧ ∃ self,
      record_moves (MarkovPredictor_new 3)
        ["rock"; "lizard"; "paper"; "spock"; "rock"] = Return tt self
      ∧ ∃ m, m ∈ MOVES ∧ predict_next_user_move self = Return m self.
Proof.
  assert (Hn : (1 ≤ 3 ≤ 50)%Z) by lia.
  split; [exact Hn |].
  exact (warm_after_order_valid_moves 3
           ["rock"; "lizard"; "paper"; "spock"; "rock"] Hn).
Defined.

(** ** The table counts what followed each window *)

Lemma last_n_last_n {A} n k (l : list A) :
  n ≤ k → last_n n (last_n k l) = last_n n l.
Proof.
  intros Hnk. unfold last_n. rewrite length_drop, drop_drop. f_equal. lia.
Qed.

Lemma last_n_cons {A} n x (l : list A) :
  n ≤ length l → last_n n (x :: l) = last_n n l.
Proof.
  intros Hn. unfold last_n. cbn [length].
  by replace (S (length l) - n) with (S (length l - n)) by lia.
Qed.

Ltac count_cases :=
  repeat case_bool_decide; cbn [length] in *;
  repeat match goal with H : _ ∧ _ |- _ => destruct H end;
  first
    [ lia
    | exfalso;
      match goal with
      | H : ¬ _ |- _ => apply H; repeat split; (lia || congruence)
      end ].

Lemma ngram_count_snoc n vs m key m' :
  1 ≤ n →
  ngram_count n (vs ++ [m]) key m' =
  (ngram_count n vs key m'
   + if bool_decide ((n ≤ length vs)%nat ∧ last_n n vs = key ∧ m' = m)
     then 1 else 0)%Z.
Proof.
  intros Hn. induction vs as [| x vs IH].
  - cbn [app ngram_count length].
    rewrite (lookup_ge_None_2 [m] n) by (cbn; lia).
    rewrite bool_decide_eq_false_2 by (by intros [_ ?]).
    by rewrite bool_decide_eq_false_2 by lia.
  - cbn [app]. cbn [ngram_count]. rewrite IH. clear IH.
    change (x :: vs ++ [m]) with ((x :: vs) ++ [m]).
    destruct (decide (n ≤ length vs)) as [Hle | Hgt].
    + rewrite take_app_le by (cbn; lia).
      rewrite lookup_app_l by (cbn; lia).
      rewrite last_n_cons by done.
      count_cases.
    + destruct (decide (n = S (length vs))) as [-> | Hne].
      * rewrite take_app_length' by done.
        rewrite (last_n_all (S (length vs)) (x :: vs)) by done.
        rewrite list_lookup_middle by done.
        rewrite (lookup_ge_None_2 (x :: vs)) by done.
        count_cases.
      * rewrite (lookup_ge_None_2 ((x :: vs) ++ [m]))
          by (rewrite length_app; cbn; lia).
        rewrite (lookup_ge_None_2 (x :: vs)) by (cbn; lia).
        count_cases.
Qed.

Lemma record_moves_counts n self vs ms :
  (1 ≤ n ≤ 50)%Z →
  order self = n →
  maxlen (history self) = 50 →
  items (history self) = last_n 50 vs →
  (∀ key m, count (transitions self) key m
            = ngram_count (Z.to_nat n) vs key m) →
  ∃ self',
    record_moves self ms = Return tt self'
    ∧ ∀ key m, count (transitions self') key m
               = ngram_count (Z.to_nat n) (vs ++ valid_moves ms) key m.
Proof.
  intros Hn. revert self vs.
  induction ms as [| m ms IH]; intros self vs Hord Hmax Hitems Hcount.
  - exists self. split; [done |]. by rewrite app_nil_r.
  - cbn [record_moves]. rewrite valid_moves_cons.
    destruct (decide (m ∈ MOVES)) as [Hm | Hm].
    2: { rewrite bool_decide_eq_false_2 by done.
         rewrite record_user_move_invalid by done. cbn [bind].
         by apply IH. }
    rewrite bool_decide_eq_true_2 by done.
    rewrite record_user_move_valid by done. cbn [bind].
    rewrite cons_middle, app_assoc.
    assert (Hlen : length (items (history self)) = length vs `min` 50)
      by (by rewrite Hitems, length_last_n).
    apply IH; cbn [order history transitions]; [done | done | |].
    + rewrite deque_append_last_n by lia.
      by rewrite Hmax, Hitems, last_n_app.
    + intros key mv. rewrite ngram_count_snoc by lia.
      destruct (Z.leb_spec (order self) (len (history self))) as [Hle | Hlt];
        unfold len in *.
      * rewrite count_learn, Hcount. f_equal.
        assert (Hstate : current_state self = last_n (Z.to_nat n) vs).
        { unfold current_state. rewrite slice_from_last by lia.
          rewrite Hord, Hitems.
          change (drop (length (last_n 50 vs) - Z.to_nat n) (last_n 50 vs))
            with (last_n (Z.to_nat n) (last_n 50 vs)).
          apply last_n_last_n. lia. }
        rewrite Hstate.
        count_cases.
      * rewrite Hcount. rewrite bool_decide_eq_false_2 by lia. lia.
Qed.

(** X14: for a window length [n] between 1 and 50, the table of a
    predictor holds the statistics of the valid moves it was given, and
    nothing else: the count under a key for a move is the number of times
    that key, as [n] consecutive valid moves, was directly followed by
    that move.  Invalid inputs do not break a window, and what the history
    has forgotten still counts. *)
Theorem table_counts_followers (n : Z) (inputs : list string) :
  (1 ≤ n ≤ 50)%Z →
  ∃ self,
    record_moves (MarkovPredictor_new n) inputs = Return tt self
    ∧ ∀ key m,
        count (transitions self) key m
        = ngram_count (Z.to_nat n) (valid_moves inputs) key m.
Proof.
  intros Hn.
  apply (record_moves_counts n (MarkovPredictor_new n) [] inputs);
    done.
Qed.

Lemma table_counts_followers_witness :
  (1 ≤ 2 ≤ 50)%Z
  ∧ ∃ self,
      record_moves (MarkovPredictor_new 2)
        ["rock"; "paper"; "lizard"; "rock"; "paper"; "rock"; "paper";
         "scissors"]
      = Return tt self
      ∧ ∀ key m,
          count (transitions self) key m
          = ngram_count 2
              (valid_moves ["rock"; "paper"; "lizard"; "rock"; "paper";
                            "rock"; "paper"; "scissors"]) key m.
Proof.
  assert (Hn : (1 ≤ 2 ≤ 50)%Z) by lia.
  split; [exact Hn |].
  exact (table_counts_followers 2
           ["rock"; "paper"; "lizard"; "rock"; "paper"; "rock"; "paper";
            "scissors"] Hn).
Defined.

(** ** A player who never changes the move *)

Lemma occurrences_replicate m' k m :
  occurrences m' (replicate k m)
  = if bool_decide (m = m') then Z.of_nat k else 0%Z.
Proof.
  induction k as [| k IH]; [by case_bool_decide |].
  rewrite replicate_S, occurrences_cons, IH.
  case_bool_decide; lia.
Qed.

Lemma dict_max_constant m k :
  m ∈ MOVES → dict_max (frequencies (replicate (S k) m)) = Some m.
Proof.
  intros Hm. unfold frequencies. cbn [fmap list_fmap MOVES].
  rewrite !occurrences_replicate. unfold dict_max.
  move_cases Hm; repeat case_bool_decide; try done; cbn [max_from];
    repeat match goal with
    | |- context [(?a <? ?b)%Z] => destruct (Z.ltb_spec a b); try lia
    end; reflexivity.
Qed.

Lemma constant_state_history m k :
  deque_append (Deque (replicate (k `min` 50) m) 50) m
  = Deque (replicate (S k `min` 50) m) 50.
Proof.
  unfold deque_append. cbn [items maxlen]. f_equal.
  rewrite <- replicate_S_end, length_replicate.
  destruct (Nat.ltb_spec 50 (S (k `min` 50))) as [Hfull | Hroom].
  - rewrite replicate_S, skipn_cons, drop_0. f_equal. lia.
  - f_equal. lia.
Qed.

Lemma constant_state_key n m k :
  (1 ≤ n)%Z → Z.to_nat n ≤ k `min` 50 →
  current_state (constant_state n m k) = replicate (Z.to_nat n) m.
Proof.
  intros Hn Hk. unfold current_state. cbn [constant_state order history items].
  rewrite slice_from_last by (rewrite length_replicate; lia).
  rewrite length_replicate, drop_replicate. f_equal. lia.
Qed.

Lemma constant_state_step n m k :
  (1 ≤ n ≤ 50)%Z → m ∈ MOVES →
  record_user_move (constant_state n m k) m
  = Return tt (constant_state n m (S k)).
Proof.
  intros Hn Hm. rewrite record_user_move_valid by done. f_equal.
  assert (Hlen : len (history (constant_state n m k))
                 = Z.of_nat (k `min` 50)).
  { unfold len. cbn. by rewrite length_replicate. }
  rewrite Hlen. change (order (constant_state n m k)) with n.
  destruct (Z.leb_spec n (Z.of_nat (k `min` 50))) as [Hle | Hlt].
  - rewrite constant_state_key by lia.
    unfold constant_state, learn. cbn [history transitions].
    rewrite constant_state_history.
    rewrite (bool_decide_eq_true_2 (Z.to_nat n < S k)) by lia.
    case_bool_decide as Hk.
    + rewrite lookup_singleton_eq.
      cbn [default from_option id defaultdict_incr].
      rewrite String.eqb_refl, insert_singleton_eq.
      do 5 f_equal. lia.
    + rewrite lookup_empty. cbn [default from_option id defaultdict_incr].
      rewrite insert_empty. do 5 f_equal. lia.
  - unfold constant_state. cbn [history transitions].
    rewrite constant_state_history.
    rewrite (bool_decide_eq_false_2 (Z.to_nat n < k)) by lia.
    by rewrite (bool_decide_eq_false_2 (Z.to_nat n < S k)) by lia.
Qed.

Lemma constant_state_moves n m j i :
  (1 ≤ n ≤ 50)%Z → m ∈ MOVES →
  record_moves (constant_state n m j) (replicate i m)
  = Return tt (constant_state n m (j + i)).
Proof.
  intros Hn Hm. revert j. induction i as [| i IH]; intros j.
  - by rewrite Nat.add_0_r.
  - cbn [replicate record_moves]. rewrite constant_state_step by done.
    cbn [bind]. rewrite IH. do 2 f_equal. lia.
Qed.

Lemma constant_state_predict n m k :
  (1 ≤ n ≤ 50)%Z → m ∈ MOVES → Z.to_nat n ≤ k →
  predict_next_user_move (constant_state n m k)
  = Return m (constant_state n m k).
Proof.
  intros Hn Hm Hk. unfold predict_next_user_move, return_max.
  assert (Hlen : len (history (constant_state n m k))
                 = Z.of_nat (k `min` 50)).
  { unfold len. cbn. by rewrite length_replicate. }
  rewrite Hlen.
  destruct (Z.ltb_spec (Z.of_nat (k `min` 50)) (order (constant_state n m k)))
    as [Hlt | _]; [cbn in Hlt; lia |].
  rewrite constant_state_key by lia.
  unfold constant_state at 1. cbn [transitions].
  case_bool_decide as Hwarm.
  - rewrite lookup_singleton_eq. reflexivity.
  - rewrite lookup_empty. cbn [history constant_state items].
    rewrite count_history_frequencies by by apply Forall_replicate.
    destruct (k `min` 50) as [| c] eqn:Hc; [lia |].
    pose proof (dict_sum_frequencies m (replicate c m)) as Hsum.
    rewrite <- replicate_S in Hsum.
    assert (Hall : Forall (λ x, x ∈ MOVES) (replicate (S c) m))
      by by apply Forall_replicate.
    specialize (Hsum Hall).
    destruct (Z.eqb_spec (dict_sum (frequencies (replicate (S c) m))) 0);
      [lia |].
    by rewrite dict_max_constant.
Qed.

(** X15: a player who never changes the move is found out as soon as the
    predictor is warm.  For a window length [n] between 1 and 50 and a
    valid move [m], after [m] has been recorded [k] times with [k] at
    least [n], the prediction is [m], the AI answers with the move that
    beats [m], and the user who plays [m] once more loses the round, in
    the one and only way the round can go. *)
Theorem constant_player_loses (n : Z) (m : string) (k : nat) :
  (1 ≤ n ≤ 50)%Z →
  m ∈ MOVES →
  Z.to_nat n ≤ k →
  ∃ self self',
    record_moves (MarkovPredictor_new n) (replicate k m) = Return tt self
    ∧ predict_next_user_move self = Return m self
    ∧ choose_ai_move self = Return (beats m, m) self
    ∧ record_user_move self m = Return tt self'
    ∧ results (play self {| req_user_move := m |}) =
      [(inr {| user_move := m; ai_move := beats m; result := "lose";
               predicted_next_user_move := m;
               model_info :=
                 [("history_len", len (history self'));
                  ("learned_states",
                   Z.of_nat (size (transitions self')))] |},
        self')].
Proof.
  intros Hn Hm Hk.
  exists (constant_state n m k), (constant_state n m (S k)).
  pose proof (constant_state_predict n m k Hn Hm Hk) as Hp.
  split_and!.
  - apply (constant_state_moves n m 0 k Hn Hm).
  - done.
  - unfold choose_ai_move. by rewrite Hp.
  - by apply constant_state_step.
  - unfold play, choose_ai_move. cbn [req_user_move].
    rewrite (bool_decide_eq_true_2 _ Hm), Hp. cbn [negb bind].
    rewrite constant_state_step by done. cbn [bind].
    rewrite PlayResponse_new_valid by auto using beats_in_MOVES.
    cbn [results]. do 3 f_equal. move_cases Hm; reflexivity.
Qed.

Lemma constant_player_loses_witness :
  (1 ≤ 3 ≤ 50)%Z ∧ "scissors" ∈ MOVES ∧ Z.to_nat 3 ≤ 60
  ∧ ∃ self self',
      record_moves (MarkovPredictor_new 3) (replicate 60 "scissors")
      = Return tt self
      ∧ predict_next_user_move self = Return "scissors" self
      ∧ choose_ai_move self = Return (beats "scissors", "scissors") self
      ∧ record_user_move self "scissors" = Return tt self'
      ∧ results (play self {| req_user_move := "scissors" |}) =
        [(inr {| user_move := "scissors"; ai_move := beats "scissors";
                 result := "lose";
                 predicted_next_user_move := "scissors";
                 model_info :=
                   [("history_len", len (history self'));
                    ("learned_states",
                     Z.of_nat (size (transitions self')))] |},
          self')].
Proof.
  assert (Hn : (1 ≤ 3 ≤ 50)%Z) by lia.
  assert (Hm : "scissors" ∈ MOVES) by by_computation.
  assert (Hk : Z.to_nat 3 ≤ 60) by (vm_compute; lia).
  exact (conj Hn (conj Hm (conj Hk
    (constant_player_loses 3 "scissors" 60 Hn Hm Hk)))).
Defined.

(** ** The order of the moves under a key *)

(** X16: recording never reorders the moves counted under a key.  When a
    valid move is recorded on a predictor whose history is at least
    [order] long, the entry of the current state lists the same moves in
    the same order as before if the move was already counted there, and
    the same moves followed by the new one otherwise; the entries of all
    other keys are untouched.  The iteration order that decides ties in
    the prediction is therefore the order in which the moves were first
    seen after the key. *)
Theorem record_keeps_first_seen_order (self : MarkovPredictor)
    (m : string) :
  m ∈ MOVES →
  (order self ≤ len (history self))%Z →
  let old := default [] (transitions self !! current_state self) in
  ∃ self' d',
    record_user_move self m = Return tt self'
    ∧ transitions self' !! current_state self = Some d'
    ∧ dict_keys d' =
      (if bool_decide (m ∈ dict_keys old) then dict_keys old
       else dict_keys old ++ [m])
    ∧ ∀ key, key ≠ current_state self →
        transitions self' !! key = transitions self !! key.
Proof.
  intros Hm Hle old.
  eexists _, (defaultdict_incr old m).
  split; [by apply record_user_move_valid |]. cbn [transitions].
  destruct (Z.leb_spec (order self) (len (history self))) as [_ | ?];
    [| lia].
  unfold learn. split_and!.
  - by rewrite lookup_insert_eq.
  - apply defaultdict_incr_dict_keys.
  - intros key Hkey. by rewrite lookup_insert_ne.
Qed.

Lemma record_keeps_first_seen_order_witness :
  let self := {| order := 2; history := Deque ["rock"; "rock"] 50;
                 transitions :=
                   {[ ["rock"; "rock"] :=
                        [("scissors", 2%Z); ("rock", 1%Z)] ]} |} in
  let old := default [] (transitions self !! current_state self) in
  "paper" ∈ MOVES
  ∧ (order self ≤ len (history self))%Z
  ∧ ∃ self' d',
      record_user_move self "paper" = Return tt self'
      ∧ transitions self' !! current_state self = Some d'
      ∧ dict_keys d' =
        (if bool_decide ("paper" ∈ dict_keys old) then dict_keys old
         else dict_keys old ++ ["paper"])
      ∧ ∀ key, key ≠ current_state self →
          transitions self' !! key = transitions self !! key.
Proof.
  intros self old.
  assert (Hm : "paper" ∈ MOVES) by by_computation.
  assert (Hle : (order self ≤ len (history self))%Z) by (by vm_compute).
  exact (conj Hm (conj Hle
    (record_keeps_first_seen_order self "paper" Hm Hle))).
Defined.
